(** * agext/uuid: a shallow embedding of the version-1 UUID generator

    The Go package [uuid] keeps one process-wide generator (a packed 64-bit
    register holding variant, clock sequence and node identifier, a 13-bit
    counter, a 16-bit node tail and a pool of random bytes) and offers
    constructors, accessors and text conversions for 16-byte identifiers.

    Go's fixed-width integers are modelled as [Z] with every conversion and
    wrap-around written out; Go's [byte] is [Byte.byte]; Go's [string] is
    [string]; a slice is a list whose length is the slice's capacity.  A Go
    run-time panic (slice bounds, failed start-up) is [None].  The clock,
    the seeded pseudo-random source and the operating system's entropy
    source are inputs of the operations that consult them. *)

From Stdlib Require Import ZArith Lia List Bool Strings.Byte Ascii String.
From Stdlib Require Import Btauto.
From coqutil Require Import Z.bitblast.
Import ListNotations.
Local Open Scope Z_scope.

(** ** Machine integers *)

Module GoInt.

Definition uint8  (z : Z) : Z := z mod 2 ^ 8.
Definition uint16 (z : Z) : Z := z mod 2 ^ 16.
Definition uint32 (z : Z) : Z := z mod 2 ^ 32.
Definition uint64 (z : Z) : Z := z mod 2 ^ 64.

(** Two's-complement reading of the low 64 bits. *)
Definition int64 (z : Z) : Z := (z + 2 ^ 63) mod 2 ^ 64 - 2 ^ 63.

(** The value of a [byte], and the conversion [byte(z)]. *)
Definition byte_val (b : byte) : Z := Z.of_N (Byte.to_N b).

Definition to_byte (z : Z) : byte :=
  match Byte.of_N (Z.to_N (uint8 z)) with
  | Some b => b
  | None => x00
  end.

End GoInt.
Import GoInt.

(** ** Slices *)

(** [b[lo:hi]]; Go panics unless [0 <= lo <= hi <= cap(b)]. *)
Definition slice {A : Type} (b : list A) (lo hi : Z) : option (list A) :=
  if (0 <=? lo) && (lo <=? hi) && (hi <=? Z.of_nat (List.length b))
  then Some (firstn (Z.to_nat (hi - lo)) (skipn (Z.to_nat lo) b))
  else None.

(** Writing [data] through a view of [b] that starts at index [pos]. *)
Definition store {A : Type} (b : list A) (pos : nat) (data : list A) : list A :=
  firstn pos b ++ data ++ skipn (pos + List.length data) b.

(** [make([]byte, n)] *)
Definition make (n : nat) : list byte := repeat x00 n.

Notation "x <- a ;; b" :=
  (match a with Some x => b | None => None end)
  (at level 61, a at next level, right associativity).

(** ** encoding/binary, big-endian *)

Module BigEndian.

Definition Uint16 (b : list byte) : option Z :=
  match b with
  | b0 :: b1 :: _ =>
      Some (Z.lor (byte_val b1) (Z.shiftl (byte_val b0) 8))
  | _ => None
  end.

Definition Uint32 (b : list byte) : option Z :=
  match b with
  | b0 :: b1 :: b2 :: b3 :: _ =>
      Some (Z.lor (Z.lor (Z.lor (byte_val b3) (Z.shiftl (byte_val b2) 8))
                         (Z.shiftl (byte_val b1) 16))
                  (Z.shiftl (byte_val b0) 24))
  | _ => None
  end.

Definition Uint64 (b : list byte) : option Z :=
  match b with
  | b0 :: b1 :: b2 :: b3 :: b4 :: b5 :: b6 :: b7 :: _ =>
      Some (Z.lor (Z.lor (Z.lor (Z.lor (Z.lor (Z.lor (Z.lor
              (byte_val b7)
              (Z.shiftl (byte_val b6) 8))
              (Z.shiftl (byte_val b5) 16))
              (Z.shiftl (byte_val b4) 24))
              (Z.shiftl (byte_val b3) 32))
              (Z.shiftl (byte_val b2) 40))
              (Z.shiftl (byte_val b1) 48))
              (Z.shiftl (byte_val b0) 56))
  | _ => None
  end.

(** The bytes [PutUintN] writes, first byte first. *)
Definition PutUint16 (v : Z) : list byte :=
  [to_byte (Z.shiftr v 8); to_byte v].

Definition PutUint32 (v : Z) : list byte :=
  [to_byte (Z.shiftr v 24); to_byte (Z.shiftr v 16);
   to_byte (Z.shiftr v 8); to_byte v].

Definition PutUint64 (v : Z) : list byte :=
  [to_byte (Z.shiftr v 56); to_byte (Z.shiftr v 48);
   to_byte (Z.shiftr v 40); to_byte (Z.shiftr v 32);
   to_byte (Z.shiftr v 24); to_byte (Z.shiftr v 16);
   to_byte (Z.shiftr v 8); to_byte v].

End BigEndian.

(** ** Epoch conversion *)

Definition gregorianEpoch : Z := 0x01B21DD213814000.

(** Go's [/] on integers truncates toward zero: [Z.quot]. *)
Definition fromUnixNano (ts : Z) : Z := int64 (int64 (Z.quot ts 100) + gregorianEpoch).

Definition toUnixNano (ts : Z) : Z := int64 (int64 (ts - gregorianEpoch) * 100).

(** The same two conversions as the specification words them, over the
    unbounded integers. *)
Definition spec_ToGregorianTicks (t : Z) : Z := Z.quot t 100 + gregorianEpoch.
Definition spec_ToUnixNanos (g : Z) : Z := (g - gregorianEpoch) * 100.

Definition in_int64 (z : Z) : Prop := - 2 ^ 63 <= z < 2 ^ 63.


(** ** The generator *)

(** A UUID is a byte slice. *)
Definition UUID : Type := list byte.

(** The package-level variables.  [randBuf] is the backing array of the
    pool, [randBufCap] bytes long.  The state of [math/rand] is not part of
    the record: the value a call draws from it is an input of [New]. *)
Record Gen : Type := mkGen {
  randBuf : list byte;
  randBufOffset : Z;
  clockSeqAndNode : Z;
  clockSeq : Z;
  nodeRand : Z
}.

Definition randBufCap : Z := 256.

(** [crypto/rand.Read(b[lo:])] when the source delivers [chunk]: as many of
    its bytes as fit in the [len] bytes of the destination are written from
    index [lo] on; the result is the count and the updated array. *)
Definition rand_Read (chunk : list byte) (b : list byte) (lo len : nat)
  : nat * list byte :=
  let got := firstn len chunk in
  (List.length got, store b lo got).

(** The retry loop of [init]: [for i := 0; i < 8 && n < 8; i++]. *)
Fixpoint init_retry (i : nat) (reads : list (list byte)) (buf : list byte) (n : nat)
  : nat * list byte :=
  match i with
  | O => (n, buf)
  | S i' =>
      if (n <? 8)%nat then
        let '(n2, buf') := rand_Read (hd [] reads) buf n (8 - n) in
        init_retry i' (tl reads) buf' (n + n2)
      else (n, buf)
  end.

(** Writing one element of an array. *)
Definition set_byte (b : list byte) (i : nat) (v : byte) : list byte :=
  store b i [v].

(** [init]: [reads] are the successive deliveries of the entropy source.
    The seeding of [math/rand] with [int64(clockSeqAndNode)] has no
    counterpart here. *)
Definition init (reads : list (list byte)) : option Gen :=
  let buf := make (Z.to_nat randBufCap) in
  let '(n, buf) := rand_Read (hd [] reads) buf 0 8 in
  let '(n, buf) := init_retry 8 (tl reads) buf n in
  if (n <? 8)%nat then None
  else
    let r0 := nth 0 buf x00 in
    let buf := set_byte buf 0
                 (to_byte (uint8 (Z.lor (Z.land (byte_val r0) 0x1f) (Z.shiftl 1 5)))) in
    let r2 := nth 2 buf x00 in
    let buf := set_byte buf 2
                 (to_byte (uint8 (Z.lor (uint8 (Z.shiftl (byte_val r2) 2)) 0x03))) in
    csan <- BigEndian.Uint64 buf ;;
    Some {| randBuf := buf;
            randBufOffset := 0;
            clockSeqAndNode := csan;
            clockSeq := uint16 (Z.land (Z.shiftr csan 48) 0x1fff);
            nodeRand := uint16 (Z.land csan 0xffff) |}.

(** [SetNodeId]: the error, if any, and the new state. *)
Inductive SetNodeIdError : Type :=
| DiscardedBits (nodeId : Z).

Definition SetNodeId (nodeId : Z) (g : Gen) : option SetNodeIdError * Gen :=
  let csan :=
    Z.lor (Z.land (clockSeqAndNode g) 0xffff03000000ffff)
          (uint64 (Z.shiftl
             (uint64 (Z.lor (uint32 (Z.shiftl (Z.land nodeId 0x3f000000) 2))
                            (Z.land nodeId 0x00ffffff)))
             16)) in
  let g' := {| randBuf := randBuf g;
               randBufOffset := randBufOffset g;
               clockSeqAndNode := csan;
               clockSeq := clockSeq g;
               nodeRand := nodeRand g |} in
  if negb (Z.shiftr nodeId 30 =? 0) then (Some (DiscardedBits nodeId), g')
  else (None, g').

(** The 30-bit reconstruction shared by [NodeId] and [UUID.NodeId]. *)
Definition NodeId (g : Gen) : Z :=
  let nodeId := Z.shiftr (clockSeqAndNode g) 16 in
  uint32 (Z.lor (Z.land nodeId 0x00ffffff)
                (Z.shiftr (Z.land nodeId 0xfc000000) 2)).

(** The timestamp half of an identifier, common to both generators. *)
Definition put_timestamp (uuid : list byte) (now : Z) : list byte :=
  let ts := fromUnixNano (int64 now) in
  let uuid := store uuid 0 (BigEndian.PutUint32 (uint32 (Z.land ts 0xffffffff))) in
  let uuid := store uuid 4
                (BigEndian.PutUint16 (uint16 (Z.land (Z.shiftr ts 32) 0xffff))) in
  store uuid 6
    (BigEndian.PutUint16
       (Z.lor (uint16 (Z.land (Z.shiftr ts 48) 0x0fff)) (Z.shiftl 1 12))).

(** The statement both generators repack the register with:
    [clockSeqAndNode = (clockSeqAndNode & 0xe000ffffffff0000) |
       ((uint64(clockSeq)) << 48) | uint64(nodeRand)]. *)
Definition repack (csan cs nr : Z) : Z :=
  Z.lor (Z.lor (Z.land csan 0xe000ffffffff0000)
               (uint64 (Z.shiftl (uint64 cs) 48)))
        (uint64 nr).

(** [New]: [now] is [timeNow().UTC().UnixNano()] and [rnd] the value
    [mrand.Int31n(0x10000)] returns if it is called. *)
Definition New (now rnd : Z) (g : Gen) : UUID * Gen :=
  let uuid := make 16 in
  let cs := Z.land (uint16 (clockSeq g + 1)) 0x1fff in
  let nr := if cs =? 0 then uint16 rnd else nodeRand g in
  let csan := repack (clockSeqAndNode g) cs nr in
  let uuid := store uuid 8 (BigEndian.PutUint64 (uint64 csan)) in
  (put_timestamp uuid now,
   {| randBuf := randBuf g;
      randBufOffset := randBufOffset g;
      clockSeqAndNode := csan;
      clockSeq := cs;
      nodeRand := nr |}).

(** [NewCrypto]: [chunk] is what the entropy source delivers to the one
    [rand.Read] of the call. *)
Definition NewCrypto (now : Z) (chunk : list byte) (g : Gen) : option (UUID * Gen) :=
  let uuid := make 16 in
  let off := randBufOffset g in
  _ <- slice (randBuf g) off (off + 4) ;;
  let '(n, buf) := rand_Read chunk (randBuf g) (Z.to_nat off) 4 in
  let off := off + (Z.of_nat n - 4) in
  let off := if off <? 0 then 0 else off in
  window <- slice buf off (off + 4) ;;
  val <- BigEndian.Uint32 window ;;
  let off := off + 4 in
  let off := if off >? randBufCap - 4 then 0 else off in
  let cs := uint16 (Z.land (Z.shiftr val 16) 0x1fff) in
  let nr := uint16 (Z.land val 0xffff) in
  let csan := repack (clockSeqAndNode g) cs nr in
  let uuid := store uuid 8 (BigEndian.PutUint64 (uint64 csan)) in
  Some (put_timestamp uuid now,
        {| randBuf := buf;
           randBufOffset := off;
           clockSeqAndNode := csan;
           clockSeq := cs;
           nodeRand := nr |}).

(** ** Accessors *)

Definition UUID_NodeId (u : UUID) : option Z :=
  b <- slice u 8 16 ;;
  w <- BigEndian.Uint64 b ;;
  let nodeId := Z.shiftr w 16 in
  Some (uint32 (Z.lor (Z.land nodeId 0x00ffffff)
                      (Z.shiftr (Z.land nodeId 0xfc000000) 2))).

Definition UUID_Version (u : UUID) : option Z :=
  b <- slice u 6 8 ;;
  w <- BigEndian.Uint16 b ;;
  Some (Z.shiftr (Z.land w 0xf000) 12).

Definition UUID_Variant (u : UUID) : option Z :=
  b <- slice u 8 10 ;;
  w <- BigEndian.Uint16 b ;;
  Some (Z.shiftr (Z.land w 0xe000) 13).

(** ** strings and encoding/hex

    The two standard-library packages the text conversions call, with the
    behaviour of the Go standard library. *)

Module strings.

(** [strings.Replace(s, old, new, -1)] for a one-character [old]: every
    occurrence is replaced. *)
Fixpoint Replace1 (s : string) (old : ascii) (new : string) : string :=
  match s with
  | EmptyString => EmptyString
  | String c rest =>
      if Ascii.eqb c old then new ++ Replace1 rest old new
      else String c (Replace1 rest old new)
  end.

(** [s[lo:hi]]; Go panics unless [lo <= hi <= len(s)]. *)
Definition slice (s : string) (lo hi : nat) : option string :=
  if ((lo <=? hi) && (hi <=? String.length s))%nat
  then Some (substring lo (hi - lo) s)
  else None.

End strings.

Module hex.

Definition hextable : string := "0123456789abcdef".

(** [hextable[i]] *)
Definition hextable_at (i : Z) : byte :=
  nth (Z.to_nat i) (list_byte_of_string hextable) x00.

Fixpoint Encode (src : list byte) : list byte :=
  match src with
  | [] => []
  | v :: rest =>
      hextable_at (Z.shiftr (byte_val v) 4)
        :: hextable_at (Z.land (byte_val v) 0x0f)
        :: Encode rest
  end.

Definition EncodeToString (src : list byte) : string :=
  string_of_list_byte (Encode src).

Definition DecodedLen (x : Z) : Z := Z.quot x 2.

Inductive Error : Type :=
| ErrLength
| InvalidByteError (c : byte).

Definition fromHexChar (c : byte) : option Z :=
  let v := byte_val c in
  if (byte_val "0" <=? v) && (v <=? byte_val "9")
  then Some (uint8 (v - byte_val "0"))
  else if (byte_val "a" <=? v) && (v <=? byte_val "f")
  then Some (uint8 (uint8 (v - byte_val "a") + 10))
  else if (byte_val "A" <=? v) && (v <=? byte_val "F")
  then Some (uint8 (uint8 (v - byte_val "A") + 10))
  else None.

(** [Decode]: the bytes decoded before the first problem, and the error.
    A bad character is reported before an odd length. *)
Fixpoint Decode (src : list byte) : list byte * option Error :=
  match src with
  | [] => ([], None)
  | [p] =>
      match fromHexChar p with
      | None => ([], Some (InvalidByteError p))
      | Some _ => ([], Some ErrLength)
      end
  | p :: q :: rest =>
      match fromHexChar p with
      | None => ([], Some (InvalidByteError p))
      | Some a =>
          match fromHexChar q with
          | None => ([], Some (InvalidByteError q))
          | Some b =>
              let '(dst, err) := Decode rest in
              (to_byte (Z.lor (uint8 (Z.shiftl a 4)) b) :: dst, err)
          end
      end
  end.

Definition DecodeString (s : string) : list byte * option Error :=
  Decode (list_byte_of_string s).

End hex.

(** ** Constructors from bytes and text, formatting *)

Inductive Error : Type :=
| WrongLength (n : nat)
| NotValidUUID (s : string)
| HexError (e : hex.Error).

Definition NewFromBytes (b : list byte) : UUID + Error :=
  if negb (List.length b =? 16)%nat then inr (WrongLength (List.length b))
  else inl (store (make 16) 0 (firstn 16 b)).

Definition NewFromString (s : string) : UUID + Error :=
  let digits := strings.Replace1 s "-" "" in
  if negb (hex.DecodedLen (Z.of_nat (String.length digits)) =? 16)
  then inr (NotValidUUID s)
  else
    match hex.DecodeString digits with
    | (uuid, None) => inl uuid
    | (_, Some err) => inr (HexError err)
    end.

Definition UUID_Hex (u : UUID) : string := hex.EncodeToString u.

Definition UUID_String (u : UUID) : option string :=
  let h := UUID_Hex u in
  g1 <- strings.slice h 0 8 ;;
  g2 <- strings.slice h 8 12 ;;
  g3 <- strings.slice h 12 16 ;;
  g4 <- strings.slice h 16 20 ;;
  g5 <- strings.slice h 20 32 ;;
  Some (g1 ++ "-" ++ g2 ++ "-" ++ g3 ++ "-" ++ g4 ++ "-" ++ g5)%string.

(** The identifier and its text used by the package's tests. *)
Definition example_uuid : UUID :=
  [xf2; x54; xdf; x4a; x18; x4c; x10; x19; x80; xa4; xc6; x1c; xd0; x0a; x68; x99].

Definition example_string : string := "f254df4a-184c-1019-80a4-c61cd00a6899".

(** The register [SetNodeId] leaves behind. *)
Definition set_node (csan nodeId : Z) : Z :=
  clockSeqAndNode (snd (SetNodeId nodeId
    {| randBuf := []; randBufOffset := 0; clockSeqAndNode := csan;
       clockSeq := 0; nodeRand := 0 |})).

(** ** Sequences of generator calls, reachable states *)

Inductive GenCall : Type :=
| CallNew (now rnd : Z)
| CallNewCrypto (now : Z) (chunk : list byte).

Definition generate (c : GenCall) (g : Gen) : option (UUID * Gen) :=
  match c with
  | CallNew now rnd => Some (New now rnd g)
  | CallNewCrypto now chunk => NewCrypto now chunk g
  end.

(** The identifiers a sequence of generator calls returns, in order. *)
Fixpoint run (calls : list GenCall) (g : Gen) : option (list UUID * Gen) :=
  match calls with
  | [] => Some ([], g)
  | c :: rest =>
      r <- generate c g ;;
      r' <- run rest (snd r) ;;
      Some (fst r :: fst r', snd r')
  end.

(** The states the package can be in: after [init], and after any call of
    an exported operation that changes the state. *)
Inductive reachable : Gen -> Prop :=
| reach_init reads g :
    init reads = Some g -> reachable g
| reach_SetNodeId nodeId g :
    0 <= nodeId < 2 ^ 32 -> reachable g -> reachable (snd (SetNodeId nodeId g))
| reach_generate c g u g' :
    reachable g -> generate c g = Some (u, g') -> reachable g'.

(** The ranges of the integer variables' Go types. *)
Record Gen_typed (g : Gen) : Prop := {
  ty_clockSeqAndNode : 0 <= clockSeqAndNode g < 2 ^ 64;
  ty_clockSeq : 0 <= clockSeq g < 2 ^ 16;
  ty_nodeRand : 0 <= nodeRand g < 2 ^ 16
}.

(** What [reachable] states have in common. *)
Record Gen_ok (g : Gen) : Prop := {
  ok_typed : Gen_typed g;
  ok_pool : List.length (randBuf g) = Z.to_nat randBufCap;
  ok_offset : 0 <= randBufOffset g <= randBufCap - 4;
  ok_variant : Z.shiftr (clockSeqAndNode g) 61 = 1
}.

(** The first eight bytes of a generated identifier. *)
Definition timestamp_fields (now : Z) : list byte :=
  firstn 8 (put_timestamp (make 16) now).

(** The 16-bit word [put_timestamp] writes at index 6. *)
Definition time_hi_and_version (now : Z) : Z :=
  Z.lor (uint16 (Z.land (Z.shiftr (fromUnixNano (int64 now)) 48) 0x0fff))
        (Z.shiftl 1 12).

(** The node id a value of the register carries. *)
Definition node_of (csan : Z) : Z :=
  NodeId {| randBuf := []; randBufOffset := 0; clockSeqAndNode := csan;
            clockSeq := 0; nodeRand := 0 |}.

(** The three most significant bits of the byte at index 8. *)
Definition variant_bits (u : UUID) : Z := Z.shiftr (byte_val (nth 8 u x00)) 5.

(** The 13-bit clock sequence an identifier carries in bytes 8 and 9. *)
Definition clock_sequence (u : UUID) : option Z :=
  b <- slice u 8 10 ;;
  w <- BigEndian.Uint16 b ;;
  Some (Z.land w 0x1fff).

(** The state [init] builds when the entropy source delivers eight zero
    bytes at once. *)
Definition zero_seed : list (list byte) := [[x00; x00; x00; x00; x00; x00; x00; x00]].

Definition gen0 : Gen :=
  {| randBuf := store (make 256) 0 [x20; x00; x03];
     randBufOffset := 0;
     clockSeqAndNode := 0x2000030000000000;
     clockSeq := 0;
     nodeRand := 0 |}.

(** ** The variant table as the specification reads it *)

(** The numeric code of a 3-bit variant pattern: [0xx] is 0, [10x] is 1,
    [110] is 2, [111] is 3. *)
Definition spec_variant_code (bits : Z) : Z :=
  if Z.testbit bits 2 then
    if Z.testbit bits 1 then
      if Z.testbit bits 0 then 3 else 2
    else 1
  else 0.

(** ** Hexadecimal text as the specification reads it *)

Definition is_hex_digit (c : ascii) : bool :=
  let n := Z.of_N (N_of_ascii c) in
  ((48 <=? n) && (n <=? 57)) || ((97 <=? n) && (n <=? 102)) || ((65 <=? n) && (n <=? 70)).

Definition is_lower_hex_digit (c : ascii) : bool :=
  let n := Z.of_N (N_of_ascii c) in
  ((48 <=? n) && (n <=? 57)) || ((97 <=? n) && (n <=? 102)).

Definition hex_digit_value (c : ascii) : Z :=
  let n := Z.of_N (N_of_ascii c) in
  if n <=? 57 then n - 48 else if n <=? 70 then n - 55 else n - 87.

(** The lowercase digit of a value below 16. *)
Definition lower_hex_digit (d : Z) : ascii :=
  ascii_of_N (Z.to_N (if d <? 10 then 48 + d else 87 + d)).

(** The bytes a string of hexadecimal digits denotes, two digits a byte,
    most significant digit first. *)
Fixpoint spec_decode (s : string) : list byte :=
  match s with
  | String hi (String lo rest) =>
      to_byte (16 * hex_digit_value hi + hex_digit_value lo) :: spec_decode rest
  | _ => []
  end.

(** The text left when every dash is removed. *)
Fixpoint strip_dashes (s : string) : string :=
  match s with
  | EmptyString => EmptyString
  | String c rest =>
      if Ascii.eqb c "-" then strip_dashes rest else String c (strip_dashes rest)
  end.

Fixpoint all_chars (p : ascii -> bool) (s : string) : bool :=
  match s with
  | EmptyString => true
  | String c rest => p c && all_chars p rest
  end.

(** The canonical text of sixteen bytes: lowercase digits, grouped
    8-4-4-4-12. *)
Fixpoint spec_hex (u : list byte) : string :=
  match u with
  | [] => EmptyString
  | b :: rest =>
      String (lower_hex_digit (byte_val b / 16))
        (String (lower_hex_digit (byte_val b mod 16)) (spec_hex rest))
  end.

Definition spec_canonical (u : list byte) : string :=
  (spec_hex (firstn 4 u) ++ "-" ++ spec_hex (firstn 2 (skipn 4 u)) ++ "-"
   ++ spec_hex (firstn 2 (skipn 6 u)) ++ "-" ++ spec_hex (firstn 2 (skipn 8 u)) ++ "-"
   ++ spec_hex (skipn 10 u))%string.

(** ** time

    A [time.Time] is modelled by the instant it denotes: whole seconds and
    nanoseconds since the Unix epoch, as [time.Unix] normalises them.
    [UTC()] changes the location only, not the instant. *)

Module time.

Record Time : Type := mkTime { sec : Z; nsec : Z }.

Definition Unix (sec nsec : Z) : Time :=
  if (nsec <? 0) || (nsec >=? 1000000000) then
    let n := Z.quot nsec 1000000000 in
    let sec := int64 (sec + n) in
    let nsec := int64 (nsec - int64 (n * 1000000000)) in
    if nsec <? 0
    then mkTime (int64 (sec - 1)) (int64 (nsec + 1000000000))
    else mkTime sec nsec
  else mkTime sec nsec.

Definition UTC (t : Time) : Time := t.

Definition UnixNano (t : Time) : Z :=
  int64 (int64 (sec t * 1000000000) + nsec t).

End time.

(** [UUID.Time] *)
Definition UUID_Time (u : UUID) : option time.Time :=
  b <- slice u 0 4 ;;
  w <- BigEndian.Uint32 b ;;
  let timeLow := uint64 w in
  b <- slice u 4 6 ;;
  w <- BigEndian.Uint16 b ;;
  let timeMid := uint64 w in
  b <- slice u 6 8 ;;
  w <- BigEndian.Uint16 b ;;
  let timeHi := uint64 (Z.land w 0x0fff) in
  let nanosecs :=
    toUnixNano
      (int64 (uint64 (uint64 (timeLow + uint64 (Z.shiftl timeMid 32))
                      + uint64 (Z.shiftl timeHi 48)))) in
  Some (time.UTC (time.Unix (Z.quot nanosecs 1000000000)
                            (Z.rem nanosecs 1000000000))).

(** The double quote character. *)
Definition quote : ascii := ascii_of_N 34.

(** [UUID.MarshalJSON]; the error it returns is always [nil]. *)
Definition UUID_MarshalJSON (u : UUID) : option (list byte) :=
  s <- UUID_String u ;;
  Some (list_byte_of_string (String quote s ++ String quote EmptyString)).

(** ** encoding/base64, as far as the encoders use it *)

Module base64.

Definition encodeStd : string :=
  "ABCDEFGHIJKLMNOPQRSTUVWXYZabcdefghijklmnopqrstuvwxyz0123456789+/".

Definition encodeURL : string :=
  "ABCDEFGHIJKLMNOPQRSTUVWXYZabcdefghijklmnopqrstuvwxyz0123456789-_".

(** An encoding: its 64-character alphabet and its padding character,
    [None] for [NoPadding]. *)
Record Encoding : Type := mkEncoding { encode : string; padChar : option byte }.

Definition RawStdEncoding : Encoding := mkEncoding encodeStd None.
Definition RawURLEncoding : Encoding := mkEncoding encodeURL None.

(** [enc.encode[i]] *)
Definition encode_at (enc : Encoding) (i : Z) : byte :=
  nth (Z.to_nat i) (list_byte_of_string (encode enc)) x00.

Definition EncodedLen (enc : Encoding) (n : Z) : Z :=
  match padChar enc with
  | None => Z.quot n 3 * 4 + Z.quot (Z.rem n 3 * 8 + 5) 6
  | Some _ => Z.quot (n + 2) 3 * 4
  end.

(** The bytes [Encode] writes to its destination: four characters for
    every full group of three bytes, then two or three characters (and
    padding, if the encoding pads) for a remainder of one or two bytes. *)
Fixpoint Encode (enc : Encoding) (src : list byte) : list byte :=
  match src with
  | [] => []
  | [s0] =>
      let val := Z.shiftl (byte_val s0) 16 in
      [encode_at enc (Z.land (Z.shiftr val 18) 0x3F);
       encode_at enc (Z.land (Z.shiftr val 12) 0x3F)]
      ++ match padChar enc with Some p => [p; p] | None => [] end
  | [s0; s1] =>
      let val := Z.lor (Z.shiftl (byte_val s0) 16) (Z.shiftl (byte_val s1) 8) in
      [encode_at enc (Z.land (Z.shiftr val 18) 0x3F);
       encode_at enc (Z.land (Z.shiftr val 12) 0x3F);
       encode_at enc (Z.land (Z.shiftr val 6) 0x3F)]
      ++ match padChar enc with Some p => [p] | None => [] end
  | s0 :: s1 :: s2 :: rest =>
      let val := Z.lor (Z.lor (Z.shiftl (byte_val s0) 16) (Z.shiftl (byte_val s1) 8))
                       (byte_val s2) in
      encode_at enc (Z.land (Z.shiftr val 18) 0x3F)
      :: encode_at enc (Z.land (Z.shiftr val 12) 0x3F)
      :: encode_at enc (Z.land (Z.shiftr val 6) 0x3F)
      :: encode_at enc (Z.land val 0x3F)
      :: Encode enc rest
  end.

End base64.

(** ** The encoders of the package *)

Record Base64Encoder : Type := mkBase64Encoder { Enc : base64.Encoding }.

Definition Base64URLEncoder : Base64Encoder := mkBase64Encoder base64.RawURLEncoding.
Definition Base64StdEncoder : Base64Encoder := mkBase64Encoder base64.RawStdEncoding.

(** [Base64Encoder.Encode]: the destination is made with the encoded length
    and [Enc.Encode] writes through it from index 0. *)
Definition Base64Encoder_Encode (e : Base64Encoder) (src : list byte) : list byte :=
  let out := make (Z.to_nat (base64.EncodedLen (Enc e) (Z.of_nat (List.length src)))) in
  store out 0 (base64.Encode (Enc e) src).

Definition Base64Encoder_EncodeToString (e : Base64Encoder) (src : list byte) : string :=
  string_of_list_byte (Base64Encoder_Encode e src).

(** ** Notions the further properties are stated with *)

(** How many bytes [init] has gathered after its first read and its
    retries: each read adds what is delivered, up to the eight wanted. *)
Fixpoint gathered (reads : list (list byte)) (tries : nat) (n : nat) : nat :=
  match tries with
  | O => n
  | S tries' => gathered (tl reads) tries' (Nat.min 8 (n + List.length (hd [] reads)))
  end.

(** The local and multicast marker: bits 40 and 41 of the register. *)
Definition marker_bits (csan : Z) : Z := Z.land (Z.shiftr csan 40) 0x03.

(** The counters agree with the register. *)
Definition counters_agree (g : Gen) : Prop :=
  clockSeq g = Z.land (Z.shiftr (clockSeqAndNode g) 48) 0x1fff
  /\ nodeRand g = Z.land (clockSeqAndNode g) 0xffff.

(** A run of [n] calls of [New], the clock and the pseudo-random source
    delivering [inputs]. *)
Definition New_calls (inputs : list (Z * Z)) : list GenCall :=
  map (fun i => CallNew (fst i) (snd i)) inputs.

(** The alphabet of an encoding holds the character [c]. *)
Definition in_alphabet (enc : base64.Encoding) (c : byte) : Prop :=
  In c (list_byte_of_string (base64.encode enc)).

(** The character by character translation between the two alphabets. *)
Definition std_to_url (c : byte) : byte :=
  match c with
  | "+"%byte => "-"%byte
  | "/"%byte => "_"%byte
  | _ => c
  end.

(** Folding the upper-case hexadecimal letters to lower case. *)
Definition fold_hex_case (c : ascii) : ascii :=
  let n := Z.of_N (N_of_ascii c) in
  if (65 <=? n) && (n <=? 70) then ascii_of_N (Z.to_N (n + 32)) else c.

Fixpoint map_string (f : ascii -> ascii) (s : string) : string :=
  match s with
  | EmptyString => EmptyString
  | String c rest => String (f c) (map_string f rest)
  end.

(** The 32-bit word four pool bytes spell, most significant byte first. *)
Definition entropy_word (a b c d : byte) : Z :=
  Z.lor (Z.lor (Z.lor (byte_val d) (Z.shiftl (byte_val c) 8))
               (Z.shiftl (byte_val b) 16))
        (Z.shiftl (byte_val a) 24).

(** The state [NewCrypto] leaves when it decodes the pool bytes [a b c d]
    with the pool [buf] and the cursor [off] set aside. *)
Definition crypto_state (g : Gen) (buf : list byte) (off : Z) (a b c d : byte) : Gen :=
  let val := entropy_word a b c d in
  let cs := uint16 (Z.land (Z.shiftr val 16) 0x1fff) in
  let nr := uint16 (Z.land val 0xffff) in
  {| randBuf := buf;
     randBufOffset := off;
     clockSeqAndNode := repack (clockSeqAndNode g) cs nr;
     clockSeq := cs;
     nodeRand := nr |}.

(** A raw encoding: no padding, an alphabet of 64 characters. *)
Definition raw_encoding (enc : base64.Encoding) : Prop :=
  base64.padChar enc = None /\ String.length (base64.encode enc) = 64%nat.

(** The place of a character in a list of characters, counted from [i];
    the length of the list past [i] when it is not there. *)
Fixpoint index_from (i : Z) (l : list byte) (c : byte) : Z :=
  match l with
  | [] => i
  | x :: rest => if Byte.eqb x c then i else index_from (i + 1) rest c
  end.

(** Reading unpadded base64 text back, four characters to three bytes. *)
Fixpoint spec_base64_decode (enc : base64.Encoding) (s : list byte) : list byte :=
  let ix := index_from 0 (list_byte_of_string (base64.encode enc)) in
  match s with
  | c0 :: c1 :: c2 :: c3 :: rest =>
      let v := Z.lor (Z.lor (Z.lor (Z.shiftl (ix c0) 18) (Z.shiftl (ix c1) 12))
                            (Z.shiftl (ix c2) 6))
                     (ix c3) in
      to_byte (Z.shiftr v 16) :: to_byte (Z.shiftr v 8) :: to_byte v
      :: spec_base64_decode enc rest
  | [c0; c1; c2] =>
      let v := Z.lor (Z.lor (Z.shiftl (ix c0) 18) (Z.shiftl (ix c1) 12))
                     (Z.shiftl (ix c2) 6) in
      [to_byte (Z.shiftr v 16); to_byte (Z.shiftr v 8)]
  | [c0; c1] =>
      let v := Z.lor (Z.shiftl (ix c0) 18) (Z.shiftl (ix c1) 12) in
      [to_byte (Z.shiftr v 16)]
  | _ => []
  end.

(** * Properties *)

(** ** Epoch conversion *)

Section Epoch.

Lemma int64_small z : in_int64 z -> int64 z = z.
Proof.
  unfold in_int64, int64. intros H.
  rewrite Z.mod_small by lia. lia.
Qed.

Lemma quot_100_bounds t :
  in_int64 t ->
  in_int64 (Z.quot t 100) /\ in_int64 (Z.quot t 100 * 100)
  /\ in_int64 (Z.quot t 100 + gregorianEpoch).
Proof.
  unfold in_int64, gregorianEpoch. intros H.
  Z.to_euclidean_division_equations. lia.
Qed.

Lemma fromUnixNano_exact t :
  in_int64 t -> fromUnixNano t = spec_ToGregorianTicks t.
Proof.
  intros H. destruct (quot_100_bounds t H) as (Hq & _ & Hg).
  unfold fromUnixNano, spec_ToGregorianTicks.
  rewrite (int64_small _ Hq). apply int64_small, Hg.
Qed.

Lemma toUnixNano_exact g :
  in_int64 (g - gregorianEpoch) -> in_int64 ((g - gregorianEpoch) * 100) ->
  toUnixNano g = spec_ToUnixNanos g.
Proof.
  intros H1 H2. unfold toUnixNano, spec_ToUnixNanos.
  rewrite (int64_small _ H1). apply int64_small, H2.
Qed.

End Epoch.

(** C9: for every signed 64-bit nanosecond timestamp [t], converting to
    Gregorian ticks and back yields [(t / 100) * 100] exactly (Go's
    truncating division); along the way neither conversion wraps, so both
    agree with the formulas [t / 100 + 0x01B21DD213814000] and
    [(g - 0x01B21DD213814000) * 100] read over the unbounded integers. *)
Theorem C9_unix_nano_roundtrip (t : Z) :
  in_int64 t ->
  toUnixNano (fromUnixNano t) = Z.quot t 100 * 100
  /\ fromUnixNano t = Z.quot t 100 + 0x01B21DD213814000
  /\ toUnixNano (fromUnixNano t) = (fromUnixNano t - 0x01B21DD213814000) * 100
  /\ toUnixNano (fromUnixNano t) = spec_ToUnixNanos (spec_ToGregorianTicks t).
Proof.
  intros H. destruct (quot_100_bounds t H) as (Hq & Hm & Hg).
  assert (Ef : fromUnixNano t = Z.quot t 100 + gregorianEpoch)
    by exact (fromUnixNano_exact t H).
  assert (Et : toUnixNano (fromUnixNano t) = Z.quot t 100 * 100).
  { rewrite toUnixNano_exact; rewrite Ef.
    - unfold spec_ToUnixNanos. f_equal. lia.
    - replace (Z.quot t 100 + gregorianEpoch - gregorianEpoch) with (Z.quot t 100) by lia.
      exact Hq.
    - replace (Z.quot t 100 + gregorianEpoch - gregorianEpoch) with (Z.quot t 100) by lia.
      exact Hm. }
  repeat split.
  - exact Et.
  - exact Ef.
  - rewrite Et, Ef. change 0x01B21DD213814000 with gregorianEpoch. lia.
  - rewrite Et. unfold spec_ToUnixNanos, spec_ToGregorianTicks. lia.
Qed.

Lemma C9_unix_nano_roundtrip_witness :
  in_int64 (-1700000000123456789)
  /\ toUnixNano (fromUnixNano (-1700000000123456789)) = -1700000000123456700.
Proof.
  split.
  - unfold in_int64. lia.
  - exact (proj1 (C9_unix_nano_roundtrip (-1700000000123456789)
                    ltac:(unfold in_int64; lia))).
Defined.

(** ** Bytes and big-endian words *)

Section Bytes.

Lemma byte_val_range b : 0 <= byte_val b < 2 ^ 8.
Proof.
  unfold byte_val. pose proof (Byte.to_N_bounded b). lia.
Qed.

Lemma byte_val_to_byte z : byte_val (to_byte z) = z mod 2 ^ 8.
Proof.
  unfold to_byte, byte_val, uint8.
  assert (Hr : 0 <= z mod 2 ^ 8 < 2 ^ 8) by (apply Z.mod_pos_bound; lia).
  destruct (Byte.of_N (Z.to_N (z mod 2 ^ 8))) as [b |] eqn:E.
  - apply Byte.to_of_N in E. rewrite E. lia.
  - apply Byte.of_N_None_iff in E. lia.
Qed.

Lemma to_byte_byte_val b : to_byte (byte_val b) = b.
Proof.
  unfold to_byte, byte_val, uint8.
  rewrite Z.mod_small by (pose proof (Byte.to_N_bounded b); lia).
  rewrite N2Z.id, Byte.of_to_N. reflexivity.
Qed.

Lemma Uint16_PutUint16 v rest :
  BigEndian.Uint16 (BigEndian.PutUint16 v ++ rest) = Some (v mod 2 ^ 16).
Proof.
  cbn [BigEndian.Uint16 BigEndian.PutUint16 app].
  rewrite !byte_val_to_byte. f_equal. Z.bitblast.
Qed.

(** One more byte on top of the [k] low bits. *)
Lemma lor_next_byte v k k' :
  0 <= k -> k' = k + 8 ->
  Z.lor (v mod 2 ^ k) (Z.shiftl (Z.shiftr v k mod 2 ^ 8) k) = v mod 2 ^ k'.
Proof.
  intros Hk ->. Z.bitblast.
Qed.

Lemma Uint64_PutUint64 v rest :
  BigEndian.Uint64 (BigEndian.PutUint64 v ++ rest) = Some (v mod 2 ^ 64).
Proof.
  cbn [BigEndian.Uint64 BigEndian.PutUint64 app].
  rewrite !byte_val_to_byte. f_equal.
  rewrite (lor_next_byte v 8 16), (lor_next_byte v 16 24),
    (lor_next_byte v 24 32), (lor_next_byte v 32 40), (lor_next_byte v 40 48),
    (lor_next_byte v 48 56), (lor_next_byte v 56 64) by lia.
  reflexivity.
Qed.

(** The first two bytes of a big-endian 64-bit word are its top 16 bits. *)
Lemma top_16_bits v :
  Z.lor (byte_val (to_byte (Z.shiftr v 48)))
        (Z.shiftl (byte_val (to_byte (Z.shiftr v 56))) 8)
  = Z.shiftr (v mod 2 ^ 64) 48.
Proof.
  rewrite !byte_val_to_byte. Z.bitblast.
Qed.

End Bytes.

(** ** The packed register *)

Lemma mask_variant_node :
  0xe000ffffffff0000 = Z.lor (Z.shiftl (Z.ones 3) 61) (Z.shiftl (Z.ones 32) 16).
Proof. reflexivity. Qed.

Lemma mask_keep_on_set :
  0xffff03000000ffff
  = Z.lor (Z.lor (Z.shiftl (Z.ones 16) 48) (Z.shiftl (Z.ones 2) 40)) (Z.ones 16).
Proof. reflexivity. Qed.

(** Masks as runs of ones, conversions as remainders. *)
Ltac masks :=
  unfold repack, node_of, NodeId, uint8, uint16, uint32, uint64;
  cbn [clockSeqAndNode];
  rewrite ?mask_variant_node, ?mask_keep_on_set;
  change 0x1fff with (Z.ones 13);
  change 0xffff with (Z.ones 16);
  change 0x0fff with (Z.ones 12);
  change 0x00ffffff with (Z.ones 24);
  change 0x3fffffff with (Z.ones 30);
  change 0x3f000000 with (Z.shiftl (Z.ones 6) 24);
  change 0xfc000000 with (Z.shiftl (Z.ones 6) 26);
  change 0xe000 with (Z.shiftl (Z.ones 3) 13);
  change 0xf000 with (Z.shiftl (Z.ones 4) 12).

Ltac split_ltbs :=
  repeat match goal with
         | |- context [ ?a <? ?b ] =>
             destruct (Z.ltb_spec a b); try (exfalso; lia)
         end.

(** Equality of integers bit by bit; every comparison of positions is
    split, and impossible orderings are dropped as they arise. *)
Ltac bits :=
  eapply Z.bits_inj'; intros ?i ?Hi;
  repeat (progress Z.rewrite_bitwise);
  Z.discover_equal_testbit_indices;
  split_ltbs;
  repeat match goal with
         | |- context [ Z.testbit ?a ?j ] => rewrite (Z.testbit_neg_r a j) by lia
         end;
  try btauto.

Section Register.

Lemma repack_range csan cs nr : 0 <= repack csan cs nr < 2 ^ 64.
Proof.
  assert (E : repack csan cs nr = repack csan cs nr mod 2 ^ 64).
  { masks. bits. }
  rewrite E. apply Z.mod_pos_bound. lia.
Qed.

(** Repacking keeps the three variant bits. *)
Lemma repack_variant csan cs nr :
  0 <= cs < 2 ^ 13 -> 0 <= nr < 2 ^ 16 ->
  Z.shiftr (repack csan cs nr) 61 = Z.land (Z.shiftr csan 61) 7.
Proof.
  intros Hcs Hnr.
  rewrite <- (Z.mod_small cs (2 ^ 13)), <- (Z.mod_small nr (2 ^ 16)) by lia.
  change (Z.land (Z.shiftr csan 61) 7) with (Z.land (Z.shiftr csan 61) (Z.ones 3)).
  masks. bits.
Qed.

(** Repacking stores the clock sequence in bits 48 to 60. *)
Lemma repack_clockSeq csan cs nr :
  0 <= cs < 2 ^ 13 -> 0 <= nr < 2 ^ 16 ->
  Z.land (Z.shiftr (repack csan cs nr) 48) 0x1fff = cs.
Proof.
  intros Hcs Hnr.
  rewrite <- (Z.mod_small cs (2 ^ 13)) at 2 by lia.
  rewrite <- (Z.mod_small cs (2 ^ 13)), <- (Z.mod_small nr (2 ^ 16)) by lia.
  masks. bits.
Qed.

(** Repacking keeps the configurable node bits. *)
Lemma repack_node csan cs nr :
  0 <= cs < 2 ^ 13 -> 0 <= nr < 2 ^ 16 ->
  node_of (repack csan cs nr) = node_of csan.
Proof.
  intros Hcs Hnr.
  rewrite <- (Z.mod_small cs (2 ^ 13)), <- (Z.mod_small nr (2 ^ 16)) by lia.
  masks. bits.
Qed.

Ltac set_masks :=
  unfold set_node, SetNodeId; cbn [clockSeqAndNode];
  repeat match goal with
         | |- context [ if ?c then _ else _ ] => destruct c
         end;
  cbn [snd clockSeqAndNode]; masks.

Lemma set_node_node csan nodeId :
  node_of (set_node csan nodeId) = Z.land nodeId 0x3fffffff.
Proof. set_masks; bits. Qed.

Lemma set_node_kept csan nodeId :
  Z.land (set_node csan nodeId) 0xffff03000000ffff
  = Z.land csan 0xffff03000000ffff.
Proof. set_masks; bits. Qed.

Lemma set_node_variant csan nodeId :
  Z.shiftr (set_node csan nodeId) 61 = Z.land (Z.shiftr csan 61) 7.
Proof.
  change (Z.land (Z.shiftr csan 61) 7) with (Z.land (Z.shiftr csan 61) (Z.ones 3)).
  set_masks; bits.
Qed.

Lemma set_node_range csan nodeId : 0 <= set_node csan nodeId < 2 ^ 64.
Proof.
  assert (E : set_node csan nodeId = set_node csan nodeId mod 2 ^ 64)
    by (set_masks; bits).
  rewrite E. apply Z.mod_pos_bound. lia.
Qed.

End Register.

(** ** The bytes of a generated identifier *)

Section Output.

Lemma slice_app3 {A : Type} (a b c : list A) lo hi :
  lo = Z.of_nat (List.length a) -> hi - lo = Z.of_nat (List.length b) ->
  slice (a ++ b ++ c) lo hi = Some b.
Proof.
  intros Hlo Hhi. unfold slice.
  assert (Hlen : (0 <=? lo) && (lo <=? hi)
                 && (hi <=? Z.of_nat (List.length (a ++ b ++ c))) = true).
  { rewrite !length_app. rewrite !andb_true_iff, !Z.leb_le. lia. }
  rewrite Hlen, Hhi, Hlo, !Nat2Z.id.
  rewrite skipn_app, skipn_all, Nat.sub_diag. cbn [skipn app].
  rewrite firstn_app, firstn_all, Nat.sub_diag. cbn [firstn].
  f_equal. apply app_nil_r.
Qed.

Ltac list_steps :=
  cbv [timestamp_fields put_timestamp store make repeat firstn skipn app
       List.length Nat.add BigEndian.PutUint32 BigEndian.PutUint16
       BigEndian.PutUint64 time_hi_and_version nth].

Lemma put_timestamp_fields now d :
  List.length d = 8%nat ->
  put_timestamp (store (make 16) 8 d) now = timestamp_fields now ++ d.
Proof.
  intros H.
  do 8 (destruct d as [| ? d]; [discriminate H |]).
  destruct d; [| discriminate H].
  list_steps. reflexivity.
Qed.

Lemma timestamp_fields_split now :
  exists low_mid,
    List.length low_mid = 6%nat
    /\ timestamp_fields now
       = low_mid ++ BigEndian.PutUint16 (time_hi_and_version now).
Proof.
  exists (firstn 6 (timestamp_fields now)).
  split; list_steps; reflexivity.
Qed.

Lemma timestamp_fields_length now : List.length (timestamp_fields now) = 8%nat.
Proof. list_steps. reflexivity. Qed.

Lemma PutUint64_split v :
  exists tail,
    List.length tail = 6%nat
    /\ BigEndian.PutUint64 v
       = [to_byte (Z.shiftr v 56); to_byte (Z.shiftr v 48)] ++ tail.
Proof.
  exists (skipn 2 (BigEndian.PutUint64 v)).
  split; list_steps; reflexivity.
Qed.

(** The version nibble written by [put_timestamp]. *)
Lemma generated_Version now d :
  UUID_Version (timestamp_fields now ++ d) = Some 1.
Proof.
  unfold UUID_Version.
  destruct (timestamp_fields_split now) as (low_mid & Hlen & ->).
  rewrite <- app_assoc.
  rewrite (slice_app3 low_mid _ d 6 8) by (rewrite ?Hlen; reflexivity).
  rewrite <- (app_nil_r (BigEndian.PutUint16 _)), Uint16_PutUint16.
  f_equal. unfold time_hi_and_version.
  transitivity (Z.ones 1); [| reflexivity].
  masks. change (Z.shiftl 1 12) with (Z.shiftl (Z.ones 1) 12).
  bits.
Qed.

(** The bytes at index 8 and 9 are the top 16 bits of the register. *)
Lemma generated_Variant now v :
  UUID_Variant (timestamp_fields now ++ BigEndian.PutUint64 v)
  = Some (Z.shiftr (v mod 2 ^ 64) 61).
Proof.
  unfold UUID_Variant.
  destruct (PutUint64_split v) as (tail & Hlen & ->).
  rewrite (slice_app3 (timestamp_fields now) _ tail 8 10)
    by (rewrite ?timestamp_fields_length; reflexivity).
  cbn [BigEndian.Uint16].
  rewrite top_16_bits. f_equal.
  masks. bits.
Qed.

Lemma generated_variant_bits now v :
  variant_bits (timestamp_fields now ++ BigEndian.PutUint64 v)
  = Z.shiftr (v mod 2 ^ 64) 61.
Proof.
  unfold variant_bits.
  rewrite app_nth2 by (rewrite timestamp_fields_length; lia).
  rewrite timestamp_fields_length.
  destruct (PutUint64_split v) as (tail & Hlen & ->).
  cbn [Nat.sub nth app].
  rewrite byte_val_to_byte. bits.
Qed.

Lemma generated_NodeId now v :
  UUID_NodeId (timestamp_fields now ++ BigEndian.PutUint64 v)
  = Some (node_of (v mod 2 ^ 64)).
Proof.
  unfold UUID_NodeId.
  rewrite <- (app_nil_r (BigEndian.PutUint64 v)) at 1.
  rewrite (slice_app3 (timestamp_fields now) _ [] 8 16)
    by (rewrite ?timestamp_fields_length; reflexivity).
  rewrite <- (app_nil_r (BigEndian.PutUint64 v)), Uint64_PutUint64.
  reflexivity.
Qed.

End Output.

(** ** The generators *)

Section Generators.

Lemma store_length {A : Type} (b : list A) pos data :
  (pos + List.length data <= List.length b)%nat ->
  List.length (store b pos data) = List.length b.
Proof.
  intros H. unfold store.
  rewrite !length_app, length_firstn, length_skipn. lia.
Qed.

Lemma slice_some {A : Type} (b : list A) lo hi :
  0 <= lo <= hi -> hi <= Z.of_nat (List.length b) ->
  exists w, slice b lo hi = Some w /\ List.length w = Z.to_nat (hi - lo).
Proof.
  intros H1 H2. unfold slice.
  replace ((0 <=? lo) && (lo <=? hi) && (hi <=? Z.of_nat (List.length b)))
    with true by (symmetry; rewrite !andb_true_iff, !Z.leb_le; lia).
  eexists. split; [reflexivity |].
  rewrite length_firstn, length_skipn. lia.
Qed.

Lemma clockSeq_field_range val :
  0 <= uint16 (Z.land (Z.shiftr val 16) 0x1fff) < 2 ^ 13.
Proof.
  assert (E : uint16 (Z.land (Z.shiftr val 16) 0x1fff)
              = Z.shiftr val 16 mod 2 ^ 13) by (masks; bits).
  rewrite E. apply Z.mod_pos_bound. lia.
Qed.

Lemma next_clockSeq cs : Z.land (uint16 (cs + 1)) 0x1fff = (cs + 1) mod 2 ^ 13.
Proof. masks; bits. Qed.

Lemma uint16_range z : 0 <= uint16 z < 2 ^ 16.
Proof. apply Z.mod_pos_bound. lia. Qed.

Lemma uint64_repack csan cs nr : uint64 (repack csan cs nr) = repack csan cs nr.
Proof. apply Z.mod_small, repack_range. Qed.

(** What a call of [New] returns and leaves behind. *)
Lemma New_eq now rnd g :
  let cs := (clockSeq g + 1) mod 2 ^ 13 in
  let nr := if cs =? 0 then uint16 rnd else nodeRand g in
  let csan := repack (clockSeqAndNode g) cs nr in
  New now rnd g
  = (timestamp_fields now ++ BigEndian.PutUint64 csan,
     {| randBuf := randBuf g; randBufOffset := randBufOffset g;
        clockSeqAndNode := csan; clockSeq := cs; nodeRand := nr |}).
Proof.
  cbv zeta. unfold New.
  rewrite put_timestamp_fields by reflexivity.
  rewrite next_clockSeq, uint64_repack. reflexivity.
Qed.

Lemma New_nodeRand_range now rnd g :
  Gen_typed g -> 0 <= nodeRand (snd (New now rnd g)) < 2 ^ 16.
Proof.
  intros [_ _ Hnr]. rewrite New_eq. cbn [snd nodeRand].
  destruct (_ =? 0); [apply uint16_range | exact Hnr].
Qed.

Lemma New_typed now rnd g : Gen_typed g -> Gen_typed (snd (New now rnd g)).
Proof.
  intros H. pose proof (New_nodeRand_range now rnd g H) as Hnr.
  rewrite New_eq in Hnr |- *. cbn [snd nodeRand] in Hnr |- *.
  constructor; cbn [clockSeqAndNode clockSeq nodeRand].
  - apply repack_range.
  - pose proof (Z.mod_pos_bound (clockSeq g + 1) (2 ^ 13)). lia.
  - exact Hnr.
Qed.

Lemma New_ok now rnd g : Gen_ok g -> Gen_ok (snd (New now rnd g)).
Proof.
  intros [Hty Hpool Hoff Hvar].
  pose proof (New_typed now rnd g Hty) as Hty'.
  pose proof (New_nodeRand_range now rnd g Hty) as Hnr.
  rewrite New_eq in Hty', Hnr |- *. cbn [snd nodeRand] in Hnr.
  constructor; cbn [snd randBuf randBufOffset clockSeqAndNode];
    try assumption.
  rewrite repack_variant, Hvar; [reflexivity | | exact Hnr].
  apply Z.mod_pos_bound. lia.
Qed.

(** [NewCrypto] returns from every state that satisfies the invariant. *)
Lemma NewCrypto_eq now chunk g :
  Gen_ok g ->
  exists val buf off,
    let cs := uint16 (Z.land (Z.shiftr val 16) 0x1fff) in
    let nr := uint16 (Z.land val 0xffff) in
    let csan := repack (clockSeqAndNode g) cs nr in
    NewCrypto now chunk g
    = Some (timestamp_fields now ++ BigEndian.PutUint64 csan,
            {| randBuf := buf; randBufOffset := off;
               clockSeqAndNode := csan; clockSeq := cs; nodeRand := nr |})
    /\ List.length buf = Z.to_nat randBufCap
    /\ 0 <= off <= randBufCap - 4.
Proof.
  intros [Hty Hpool Hoff Hvar]. unfold randBufCap in *.
  unfold NewCrypto, rand_Read.
  destruct (slice_some (randBuf g) (randBufOffset g) (randBufOffset g + 4))
    as (w0 & -> & _); [lia | lia |].
  set (got := firstn 4 chunk).
  assert (Hgot : (List.length got <= 4)%nat) by apply firstn_le_length.
  set (buf := store (randBuf g) (Z.to_nat (randBufOffset g)) got).
  assert (Hbuf : List.length buf = 256%nat).
  { unfold buf. rewrite store_length; [exact Hpool | lia]. }
  set (off1 := if randBufOffset g + (Z.of_nat (List.length got) - 4) <? 0
               then 0 else randBufOffset g + (Z.of_nat (List.length got) - 4)).
  assert (Hoff1 : 0 <= off1 <= 252).
  { unfold off1. destruct (Z.ltb_spec (randBufOffset g + (Z.of_nat (List.length got) - 4)) 0); lia. }
  destruct (slice_some buf off1 (off1 + 4)) as (w & -> & Hw); [lia | lia |].
  replace (Z.to_nat (off1 + 4 - off1)) with 4%nat in Hw by lia.
  do 4 (destruct w as [| ? w]; [discriminate Hw |]).
  cbn [BigEndian.Uint32].
  match goal with
  | |- context [ Z.shiftr ?v 16 ] => exists v
  end.
  exists buf.
  exists (if off1 + 4 >? 256 - 4 then 0 else off1 + 4).
  cbv zeta.
  rewrite put_timestamp_fields by reflexivity.
  rewrite uint64_repack.
  split; [reflexivity |]. split; [exact Hbuf |].
  destruct (off1 + 4 >? 256 - 4) eqn:E; [lia |].
  rewrite Z.gtb_ltb in E. apply Z.ltb_ge in E. lia.
Qed.

End Generators.

(** ** The invariant of reachable states *)

Section Invariant.

Lemma Some_inj {A : Type} (x y : A) : Some x = Some y -> x = y.
Proof. intros H. injection H. trivial. Qed.

Lemma rand_Read_length chunk b lo len :
  (lo + len <= List.length b)%nat ->
  List.length (snd (rand_Read chunk b lo len)) = List.length b.
Proof.
  intros H. unfold rand_Read. cbn [snd].
  apply store_length.
  pose proof (firstn_le_length len chunk). lia.
Qed.

Lemma init_retry_length i : forall reads buf n,
  (8 <= List.length buf)%nat ->
  List.length (snd (init_retry i reads buf n)) = List.length buf.
Proof.
  induction i as [| i IH]; intros reads buf n Hlen; cbn [init_retry].
  - reflexivity.
  - destruct (Nat.ltb_spec n 8) as [Hn | Hn]; [| reflexivity].
    pose proof (rand_Read_length (hd [] reads) buf n (8 - n) ltac:(lia)) as Hr.
    destruct (rand_Read (hd [] reads) buf n (8 - n)) as [n2 buf'].
    cbn [snd] in Hr. rewrite IH; lia.
Qed.

(** The three top bits of a big-endian word are those of its first byte. *)
Lemma Uint64_top b0 b1 b2 b3 b4 b5 b6 b7 rest w :
  BigEndian.Uint64 (b0 :: b1 :: b2 :: b3 :: b4 :: b5 :: b6 :: b7 :: rest) = Some w ->
  0 <= w < 2 ^ 64 /\ Z.shiftr w 61 = Z.shiftr (byte_val b0) 5.
Proof.
  cbn [BigEndian.Uint64]. intros E.
  apply (f_equal (fun o => match o with Some z => z | None => 0 end)) in E.
  subst w.
  rewrite <- (to_byte_byte_val b0), <- (to_byte_byte_val b1),
    <- (to_byte_byte_val b2), <- (to_byte_byte_val b3),
    <- (to_byte_byte_val b4), <- (to_byte_byte_val b5),
    <- (to_byte_byte_val b6), <- (to_byte_byte_val b7).
  rewrite !byte_val_to_byte.
  generalize (byte_val b0), (byte_val b1), (byte_val b2), (byte_val b3),
    (byte_val b4), (byte_val b5), (byte_val b6), (byte_val b7).
  intros v0 v1 v2 v3 v4 v5 v6 v7.
  split.
  - match goal with
    | |- 0 <= ?x < _ => assert (E : x = x mod 2 ^ 64) by bits
    end.
    rewrite E. apply Z.mod_pos_bound. lia.
  - bits.
Qed.

Lemma variant_byte r0 :
  Z.shiftr (byte_val (to_byte (uint8 (Z.lor (Z.land r0 0x1f) (Z.shiftl 1 5))))) 5 = 1.
Proof.
  rewrite byte_val_to_byte. unfold uint8.
  transitivity (Z.ones 1); [| reflexivity].
  change 0x1f with (Z.ones 5). change (Z.shiftl 1 5) with (Z.shiftl (Z.ones 1) 5).
  bits.
Qed.

Lemma init_ok reads g : init reads = Some g -> Gen_ok g.
Proof.
  unfold init.
  pose proof (rand_Read_length (hd [] reads) (make (Z.to_nat randBufCap)) 0 8
                ltac:(apply Nat.leb_le; reflexivity)) as H0.
  destruct (rand_Read (hd [] reads) (make (Z.to_nat randBufCap)) 0 8)
    as [n0 buf0]. cbn [snd] in H0.
  pose proof (init_retry_length 8 (tl reads) buf0 n0
                ltac:(rewrite H0; apply Nat.leb_le; reflexivity)) as H1.
  destruct (init_retry 8 (tl reads) buf0 n0) as [n buf]. cbn [snd] in H1.
  rewrite H0 in H1. change (List.length (make (Z.to_nat randBufCap))) with 256%nat in H1.
  destruct (n <? 8)%nat; [discriminate |].
  do 8 (destruct buf as [| ? buf]; [discriminate H1 |]).
  cbn [set_byte store firstn skipn app nth List.length Nat.add].
  match goal with
  | |- (csan <- BigEndian.Uint64 ?l ;; _) = _ -> _ =>
      destruct (BigEndian.Uint64 l) as [csan |] eqn:E; [| discriminate]
  end.
  apply Uint64_top in E. destruct E as [Hr Htop].
  rewrite variant_byte in Htop.
  intros Eg. apply Some_inj in Eg. subst g.
  constructor; [constructor | | |];
    cbn [clockSeqAndNode clockSeq nodeRand randBuf randBufOffset].
  - exact Hr.
  - apply uint16_range.
  - apply uint16_range.
  - cbn [List.length] in *. unfold randBufCap. lia.
  - unfold randBufCap. lia.
  - exact Htop.
Qed.

Lemma SetNodeId_eq nodeId g :
  snd (SetNodeId nodeId g)
  = {| randBuf := randBuf g; randBufOffset := randBufOffset g;
       clockSeqAndNode := set_node (clockSeqAndNode g) nodeId;
       clockSeq := clockSeq g; nodeRand := nodeRand g |}.
Proof.
  unfold set_node, SetNodeId. cbn [clockSeqAndNode].
  destruct (negb (Z.shiftr nodeId 30 =? 0)); reflexivity.
Qed.

Lemma SetNodeId_ok nodeId g : Gen_ok g -> Gen_ok (snd (SetNodeId nodeId g)).
Proof.
  intros [[Hc Hcs Hnr] Hpool Hoff Hvar]. rewrite SetNodeId_eq.
  constructor; [constructor | | |];
    cbn [clockSeqAndNode clockSeq nodeRand randBuf randBufOffset];
    try assumption.
  - apply set_node_range.
  - rewrite set_node_variant, Hvar. reflexivity.
Qed.

Lemma NewCrypto_ok now chunk g u g' :
  Gen_ok g -> NewCrypto now chunk g = Some (u, g') -> Gen_ok g'.
Proof.
  intros Hok E.
  destruct (NewCrypto_eq now chunk g Hok) as (val & buf & off & E' & Hbuf & Hoff).
  cbv zeta in E'. rewrite E' in E.
  apply Some_inj, (f_equal snd) in E. cbn [snd] in E. subst g'.
  destruct Hok as [Hty Hpool Hoff0 Hvar].
  pose proof (clockSeq_field_range val) as Hcs.
  constructor; [constructor | | |];
    cbn [clockSeqAndNode clockSeq nodeRand randBuf randBufOffset];
    try assumption.
  - apply repack_range.
  - lia.
  - apply uint16_range.
  - rewrite repack_variant, Hvar; [reflexivity | exact Hcs | apply uint16_range].
Qed.

Lemma generate_ok c g u g' :
  Gen_ok g -> generate c g = Some (u, g') -> Gen_ok g'.
Proof.
  destruct c as [now rnd | now chunk]; cbn [generate]; intros Hok E.
  - apply Some_inj, (f_equal snd) in E. cbn [snd] in E. subst g'.
    apply New_ok, Hok.
  - eapply NewCrypto_ok; eassumption.
Qed.

Theorem reachable_ok g : reachable g -> Gen_ok g.
Proof.
  induction 1 as [reads g E | nodeId g Hn Hr IH | c g u g' Hr IH E].
  - eapply init_ok, E.
  - apply SetNodeId_ok, IH.
  - eapply generate_ok; eassumption.
Qed.

Lemma reachable_gen0 : reachable gen0.
Proof.
  apply (reach_init zero_seed). vm_compute. reflexivity.
Qed.

End Invariant.

(** ** What every generated identifier carries *)

Section Generated.

Lemma NodeId_node_of g : NodeId g = node_of (clockSeqAndNode g).
Proof. reflexivity. Qed.

Lemma generated_clock_bytes now v :
  slice (timestamp_fields now ++ BigEndian.PutUint64 v) 8 10
  = Some [to_byte (Z.shiftr v 56); to_byte (Z.shiftr v 48)].
Proof.
  destruct (PutUint64_split v) as (tail & Hlen & ->).
  apply slice_app3; rewrite ?timestamp_fields_length; reflexivity.
Qed.

(** One generator call from a state that satisfies the invariant. *)
Lemma generate_spec c g :
  Gen_ok g ->
  exists u g',
    generate c g = Some (u, g')
    /\ Gen_ok g'
    /\ node_of (clockSeqAndNode g') = node_of (clockSeqAndNode g)
    /\ UUID_Version u = Some 1
    /\ UUID_Variant u = Some 1
    /\ variant_bits u = 1
    /\ UUID_NodeId u = Some (node_of (clockSeqAndNode g)).
Proof.
  intros Hok.
  assert (Hstep : exists cs nr buf off,
    generate c g
    = Some (timestamp_fields
              match c with CallNew now _ | CallNewCrypto now _ => now end
              ++ BigEndian.PutUint64 (repack (clockSeqAndNode g) cs nr),
            {| randBuf := buf; randBufOffset := off;
               clockSeqAndNode := repack (clockSeqAndNode g) cs nr;
               clockSeq := cs; nodeRand := nr |})
    /\ 0 <= cs < 2 ^ 13 /\ 0 <= nr < 2 ^ 16).
  { destruct c as [now rnd | now chunk]; cbn [generate].
    - pose proof (New_nodeRand_range now rnd g (ok_typed g Hok)) as Hnr.
      rewrite New_eq in Hnr |- *. cbn [snd nodeRand] in Hnr.
      do 4 eexists. split; [reflexivity |]. split; [| exact Hnr].
      apply Z.mod_pos_bound. lia.
    - destruct (NewCrypto_eq now chunk g Hok) as (val & buf & off & E & _).
      cbv zeta in E.
      do 4 eexists. split; [exact E |].
      split; [apply clockSeq_field_range | apply uint16_range]. }
  destruct Hstep as (cs & nr & buf & off & E & Hcs & Hnr).
  do 2 eexists. split; [exact E |].
  pose proof (repack_range (clockSeqAndNode g) cs nr) as Hr.
  pose proof (repack_variant (clockSeqAndNode g) cs nr Hcs Hnr) as Hv.
  rewrite (ok_variant g Hok) in Hv. change (Z.land 1 7) with 1 in Hv.
  cbn [clockSeqAndNode].
  rewrite generated_Version, generated_Variant, generated_variant_bits,
    generated_NodeId.
  rewrite (Z.mod_small _ _ Hr), Hv, repack_node by assumption.
  split; [eapply generate_ok; eassumption |].
  repeat split; reflexivity.
Qed.

(** A run of generator calls from a state that satisfies the invariant
    completes, and every identifier it returns has the state's node id. *)
Lemma run_spec calls : forall g,
  Gen_ok g ->
  exists us g',
    run calls g = Some (us, g')
    /\ List.length us = List.length calls
    /\ Forall (fun u => UUID_NodeId u = Some (node_of (clockSeqAndNode g))) us.
Proof.
  induction calls as [| c calls IH]; intros g Hok; cbn [run].
  - exists [], g. repeat split. constructor.
  - destruct (generate_spec c g Hok)
      as (u & g1 & -> & Hok1 & Hnode & _ & _ & _ & Hu).
    cbn [fst snd].
    destruct (IH g1 Hok1) as (us & g2 & -> & Hlen & Hall).
    cbn [fst snd]. exists (u :: us), g2.
    split; [reflexivity |]. split; [cbn [List.length]; congruence |].
    constructor; [exact Hu |]. rewrite <- Hnode. exact Hall.
Qed.

End Generated.

(** ** Claims about the generator *)

Section GeneratorClaims.

Lemma New_clock_sequence now rnd g :
  Gen_typed g ->
  clock_sequence (fst (New now rnd g)) = Some ((clockSeq g + 1) mod 2 ^ 13)
  /\ clockSeq (snd (New now rnd g)) = (clockSeq g + 1) mod 2 ^ 13.
Proof.
  intros Hty.
  pose proof (New_nodeRand_range now rnd g Hty) as Hnr.
  rewrite New_eq in Hnr |- *. cbn [fst snd clockSeq nodeRand] in Hnr |- *.
  split; [| reflexivity].
  unfold clock_sequence. rewrite generated_clock_bytes.
  cbn [BigEndian.Uint16]. rewrite top_16_bits.
  rewrite (Z.mod_small _ _ (repack_range _ _ _)).
  rewrite repack_clockSeq; [reflexivity | | exact Hnr].
  apply Z.mod_pos_bound. lia.
Qed.

Lemma top_two_bits v :
  0 <= v < 2 ^ 32 ->
  (Z.shiftr v 30 =? 0) = negb (Z.testbit v 31 || Z.testbit v 30).
Proof.
  intros Hv.
  change (Z.testbit v 31) with (Z.testbit v (1 + 30)).
  change (Z.testbit v 30) with (Z.testbit v (0 + 30)).
  rewrite <- (Z.shiftr_spec v 30 1), <- (Z.shiftr_spec v 30 0) by lia.
  assert (Hq : 0 <= Z.shiftr v 30 < 4).
  { rewrite Z.shiftr_div_pow2 by lia. split.
    - apply Z.div_pos; lia.
    - apply Z.div_lt_upper_bound; lia. }
  assert (Hc : Z.shiftr v 30 = 0 \/ Z.shiftr v 30 = 1
               \/ Z.shiftr v 30 = 2 \/ Z.shiftr v 30 = 3) by lia.
  destruct Hc as [-> | [-> | [-> | ->]]]; reflexivity.
Qed.

End GeneratorClaims.

(** From every reachable state both generators write 001 at the top of
    byte 8. *)
Lemma reachable_variant_bits g c :
  reachable g ->
  exists u g', generate c g = Some (u, g') /\ variant_bits u = 1.
Proof.
  intros Hr. apply reachable_ok in Hr.
  destruct (generate_spec c g Hr) as (u & g' & E & _ & _ & _ & _ & Hv & _).
  exists u, g'. split; assumption.
Qed.

(** C1: every identifier returned by [New] or [NewCrypto] is claimed to
    carry the bit pattern 100 (the number 4) in the three most significant
    bits of byte 8.  From the state [init] builds out of eight zero bytes of
    entropy, both generators return an identifier whose three top bits of
    byte 8 are 001 (the number 1), not 100. *)
Theorem C1_generated_variant_bits_at_zero_seed :
  init zero_seed = Some gen0
  /\ variant_bits (fst (New 0 0 gen0)) = 1
  /\ option_map (fun r => variant_bits (fst r)) (NewCrypto 0 [x00; x00; x00; x00] gen0)
     = Some 1
  /\ variant_bits (fst (New 0 0 gen0)) <> 4.
Proof.
  repeat split; try (vm_compute; reflexivity).
  vm_compute. discriminate.
Qed.

(** C2: from every reachable generator state, the identifier [New] returns
    has [Version() = 1] and [Variant() = 1], and [NewCrypto] returns an
    identifier with [Version() = 1] and [Variant() = 1]. *)
Theorem C2_generated_version_and_variant g :
  reachable g ->
  (forall now rnd,
      UUID_Version (fst (New now rnd g)) = Some 1
      /\ UUID_Variant (fst (New now rnd g)) = Some 1)
  /\ (forall now chunk,
        exists u g',
          NewCrypto now chunk g = Some (u, g')
          /\ UUID_Version u = Some 1
          /\ UUID_Variant u = Some 1).
Proof.
  intros Hr. apply reachable_ok in Hr. split.
  - intros now rnd.
    destruct (generate_spec (CallNew now rnd) g Hr)
      as (u & g' & E & _ & _ & Hver & Hvar & _).
    cbn [generate] in E. apply Some_inj in E. rewrite E. cbn [fst].
    split; assumption.
  - intros now chunk.
    destruct (generate_spec (CallNewCrypto now chunk) g Hr)
      as (u & g' & E & _ & _ & Hver & Hvar & _).
    exists u, g'. repeat split; assumption.
Qed.

Lemma C2_generated_version_and_variant_witness :
  reachable gen0
  /\ UUID_Version (fst (New 1700000000000000000 7 gen0)) = Some 1
  /\ UUID_Variant (fst (New 1700000000000000000 7 gen0)) = Some 1.
Proof.
  split.
  - exact reachable_gen0.
  - exact (proj1 (C2_generated_version_and_variant gen0 reachable_gen0)
             1700000000000000000 7).
Defined.

(** C3: two consecutive calls of [New], from any state of the generator's
    variables and whatever the clock and the pseudo-random source deliver
    (the same timestamp twice included), return identifiers that differ:
    each call increments the clock sequence modulo 8192, so the clock
    sequence held in bytes 8 and 9 changes. *)
Theorem C3_consecutive_New_differ g now1 rnd1 now2 rnd2 :
  Gen_typed g ->
  let r1 := New now1 rnd1 g in
  let r2 := New now2 rnd2 (snd r1) in
  clockSeq (snd r1) = (clockSeq g + 1) mod 8192
  /\ clockSeq (snd r2) = (clockSeq (snd r1) + 1) mod 8192
  /\ clock_sequence (fst r1) = Some (clockSeq (snd r1))
  /\ clock_sequence (fst r2) = Some (clockSeq (snd r2))
  /\ slice (fst r1) 8 10 <> slice (fst r2) 8 10
  /\ fst r1 <> fst r2.
Proof.
  intros Hty r1 r2.
  pose proof (New_typed now1 rnd1 g Hty) as Hty1.
  destruct (New_clock_sequence now1 rnd1 g Hty) as [Hw1 Hc1].
  destruct (New_clock_sequence now2 rnd2 (snd r1) Hty1) as [Hw2 Hc2].
  fold r1 in Hw1, Hc1. fold r2 in Hw2, Hc2.
  change (2 ^ 13) with 8192 in *.
  assert (Hne : clock_sequence (fst r1) <> clock_sequence (fst r2)).
  { rewrite Hw1, Hw2, <- Hc1. intros E. apply Some_inj in E.
    pose proof (Z.mod_pos_bound (clockSeq g + 1) 8192 ltac:(lia)) as Hb.
    rewrite <- Hc1 in Hb.
    revert E Hb. generalize (clockSeq (snd r1)). intros c E Hb.
    Z.to_euclidean_division_equations. lia. }
  repeat split.
  - exact Hc1.
  - exact Hc2.
  - rewrite Hw1, Hc1. reflexivity.
  - rewrite Hw2, Hc2. reflexivity.
  - intros E. apply Hne. unfold clock_sequence. rewrite E. reflexivity.
  - intros E. apply Hne. rewrite E. reflexivity.
Qed.

Lemma C3_consecutive_New_differ_witness :
  Gen_typed gen0
  /\ fst (New 5 0 gen0) <> fst (New 5 0 (snd (New 5 0 gen0))).
Proof.
  assert (Hty : Gen_typed gen0) by (constructor; cbn; lia).
  split.
  - exact Hty.
  - exact (proj2 (proj2 (proj2 (proj2 (proj2
             (C3_consecutive_New_differ gen0 5 0 5 0 Hty)))))).
Defined.

(** C4: for every unsigned 32-bit [v] below [2^30], [SetNodeId(v)] on a
    reachable state reports no error, [NodeId()] then returns [v], and
    every identifier a following sequence of [New] and [NewCrypto] calls
    returns (each call does return) yields [v] from its own [NodeId()]. *)
Theorem C4_node_id_roundtrip v g calls :
  0 <= v < 2 ^ 30 ->
  reachable g ->
  let r := SetNodeId v g in
  fst r = None
  /\ NodeId (snd r) = v
  /\ exists us g',
       run calls (snd r) = Some (us, g')
       /\ List.length us = List.length calls
       /\ Forall (fun u => UUID_NodeId u = Some v) us.
Proof.
  intros Hv Hr r.
  assert (Hnode : node_of (clockSeqAndNode (snd r)) = v).
  { subst r. rewrite SetNodeId_eq. cbn [clockSeqAndNode].
    rewrite set_node_node. change 0x3fffffff with (Z.ones 30).
    rewrite Z.land_ones by lia. apply Z.mod_small. lia. }
  split; [| split].
  - subst r. unfold SetNodeId.
    rewrite top_two_bits by lia.
    assert (H31 : Z.testbit v 31 = false).
    { rewrite <- (Z.mod_small v (2 ^ 30)) by lia.
      apply Z.mod_pow2_bits_high. lia. }
    assert (H30 : Z.testbit v 30 = false).
    { rewrite <- (Z.mod_small v (2 ^ 30)) by lia.
      apply Z.mod_pow2_bits_high. lia. }
    rewrite H31, H30. reflexivity.
  - rewrite NodeId_node_of. exact Hnode.
  - assert (Hok : Gen_ok (snd r)) by (apply SetNodeId_ok, reachable_ok, Hr).
    destruct (run_spec calls (snd r) Hok) as (us & g' & E & Hlen & Hall).
    exists us, g'. rewrite Hnode in Hall. repeat split; assumption.
Qed.

Lemma C4_node_id_roundtrip_witness :
  0 <= 0x2abcdef1 < 2 ^ 30
  /\ reachable gen0
  /\ NodeId (snd (SetNodeId 0x2abcdef1 gen0)) = 0x2abcdef1
  /\ exists us g',
       run [CallNew 5 0; CallNewCrypto 6 [x01; x02; x03; x04]; CallNew 7 0]
           (snd (SetNodeId 0x2abcdef1 gen0)) = Some (us, g')
       /\ List.length us = 3%nat
       /\ Forall (fun u => UUID_NodeId u = Some 0x2abcdef1) us.
Proof.
  split; [lia |]. split; [exact reachable_gen0 |].
  exact (proj2 (C4_node_id_roundtrip 0x2abcdef1 gen0
                  [CallNew 5 0; CallNewCrypto 6 [x01; x02; x03; x04]; CallNew 7 0]
                  ltac:(lia) reachable_gen0)).
Defined.

(** C5: for every unsigned 32-bit [v], [SetNodeId(v)] reports an error
    exactly when bit 31 or bit 30 of [v] is set; error or not, [NodeId()]
    afterwards returns [v & 0x3fffffff], and the clock sequence (the
    counter and bits 48 to 60 of the register), the low 16 node bits (the
    variable and bits 0 to 15 of the register) and the local/multicast
    marker (bits 40 and 41 of the register) are unchanged. *)
Theorem C5_SetNodeId_truncates v g :
  0 <= v < 2 ^ 32 ->
  let r := SetNodeId v g in
  (fst r <> None <-> (Z.testbit v 31 = true \/ Z.testbit v 30 = true))
  /\ NodeId (snd r) = Z.land v 0x3fffffff
  /\ clockSeq (snd r) = clockSeq g
  /\ nodeRand (snd r) = nodeRand g
  /\ Z.land (Z.shiftr (clockSeqAndNode (snd r)) 48) 0x1fff
     = Z.land (Z.shiftr (clockSeqAndNode g) 48) 0x1fff
  /\ Z.land (clockSeqAndNode (snd r)) 0xffff = Z.land (clockSeqAndNode g) 0xffff
  /\ Z.land (Z.shiftr (clockSeqAndNode (snd r)) 40) 0x03
     = Z.land (Z.shiftr (clockSeqAndNode g) 40) 0x03.
Proof.
  intros Hv r.
  pose proof (set_node_kept (clockSeqAndNode g) v) as Hkept.
  assert (Hsnd : snd r = {| randBuf := randBuf g; randBufOffset := randBufOffset g;
                            clockSeqAndNode := set_node (clockSeqAndNode g) v;
                            clockSeq := clockSeq g; nodeRand := nodeRand g |})
    by apply SetNodeId_eq.
  split; [| rewrite Hsnd; cbn [clockSeqAndNode clockSeq nodeRand]; repeat split].
  - subst r. unfold SetNodeId. rewrite (top_two_bits v Hv).
    destruct (Z.testbit v 31), (Z.testbit v 30); cbn [negb orb fst];
      intuition congruence.
  - rewrite NodeId_node_of. cbn [clockSeqAndNode]. apply set_node_node.
  - generalize dependent (set_node (clockSeqAndNode g) v). intros c Hc _.
    generalize dependent (clockSeqAndNode g). intros c0 Hc.
    apply (f_equal (fun z => Z.land (Z.shiftr z 48) (Z.ones 13))) in Hc.
    change 0x1fff with (Z.ones 13).
    etransitivity; [| etransitivity; [exact Hc |]]; rewrite mask_keep_on_set; bits.
  - generalize dependent (set_node (clockSeqAndNode g) v). intros c Hc _.
    generalize dependent (clockSeqAndNode g). intros c0 Hc.
    apply (f_equal (fun z => Z.land z (Z.ones 16))) in Hc.
    change 0xffff with (Z.ones 16).
    etransitivity; [| etransitivity; [exact Hc |]]; rewrite mask_keep_on_set; bits.
  - generalize dependent (set_node (clockSeqAndNode g) v). intros c Hc _.
    generalize dependent (clockSeqAndNode g). intros c0 Hc.
    apply (f_equal (fun z => Z.land (Z.shiftr z 40) (Z.ones 2))) in Hc.
    change 0x03 with (Z.ones 2).
    etransitivity; [| etransitivity; [exact Hc |]]; rewrite mask_keep_on_set; bits.
Qed.

Lemma C5_SetNodeId_truncates_witness :
  0 <= 0xeabcdef1 < 2 ^ 32
  /\ fst (SetNodeId 0xeabcdef1 gen0) <> None
  /\ NodeId (snd (SetNodeId 0xeabcdef1 gen0)) = 0x2abcdef1.
Proof.
  split; [lia |].
  pose proof (C5_SetNodeId_truncates 0xeabcdef1 gen0 ltac:(lia)) as H.
  cbv zeta in H. destruct H as (Herr & Hnode & _).
  split.
  - apply Herr. left. reflexivity.
  - exact Hnode.
Defined.

(** ** Claims about the accessors and the parser *)

Lemma variant_bits_range u : 0 <= variant_bits u < 8.
Proof.
  unfold variant_bits.
  pose proof (byte_val_range (nth 8 u x00)) as Hb.
  rewrite Z.shiftr_div_pow2 by lia. split.
  - apply Z.div_pos; lia.
  - apply Z.div_lt_upper_bound; lia.
Qed.

Lemma Variant_variant_bits u :
  List.length u = 16%nat -> UUID_Variant u = Some (variant_bits u).
Proof.
  intros H.
  do 16 (destruct u as [| ? u]; [discriminate H |]).
  destruct u; [| discriminate H].
  unfold UUID_Variant, variant_bits.
  change (slice [b; b0; b1; b2; b3; b4; b5; b6; b7; b8; b9; b10; b11; b12; b13; b14] 8 10)
    with (Some [b7; b8]).
  cbn [BigEndian.Uint16 nth]. f_equal.
  rewrite <- (to_byte_byte_val b7), <- (to_byte_byte_val b8), !byte_val_to_byte.
  masks. bits.
Qed.

(** C6, as the code has it: for every 16-byte identifier, [Variant()] is the
    number the three most significant bits of byte 8 spell, between 0 and 7;
    so the pattern [0xx] gives 0 to 3, [10x] gives 4 or 5, [110] gives 6 and
    [111] gives 7. *)
Theorem C6_Variant_is_top_three_bits u :
  List.length u = 16%nat ->
  UUID_Variant u = Some (variant_bits u)
  /\ 0 <= variant_bits u < 8
  /\ (spec_variant_code (variant_bits u) = 0 <-> 0 <= variant_bits u <= 3)
  /\ (spec_variant_code (variant_bits u) = 1 <-> 4 <= variant_bits u <= 5)
  /\ (spec_variant_code (variant_bits u) = 2 <-> variant_bits u = 6)
  /\ (spec_variant_code (variant_bits u) = 3 <-> variant_bits u = 7).
Proof.
  intros H. split; [apply Variant_variant_bits, H |].
  pose proof (variant_bits_range u) as Hr.
  split; [exact Hr |].
  assert (Hc : variant_bits u = 0 \/ variant_bits u = 1 \/ variant_bits u = 2
               \/ variant_bits u = 3 \/ variant_bits u = 4 \/ variant_bits u = 5
               \/ variant_bits u = 6 \/ variant_bits u = 7) by lia.
  destruct Hc as [-> | [-> | [-> | [-> | [-> | [-> | [-> | ->]]]]]]];
    cbn; repeat split; intros; try lia; try discriminate.
Qed.

Lemma C6_Variant_is_top_three_bits_witness :
  List.length example_uuid = 16%nat
  /\ UUID_Variant example_uuid = Some 4.
Proof.
  split; [reflexivity |].
  exact (proj1 (C6_Variant_is_top_three_bits example_uuid eq_refl)).
Defined.

(** C6, as stated, fails on the identifier of the package's tests: byte 8 is
    0x80, pattern 100, for which the stated table gives 1; [Variant()]
    returns 4. *)
Lemma C6_variant_table_counterexample :
  NewFromBytes example_uuid = inl example_uuid
  /\ variant_bits example_uuid = 4
  /\ spec_variant_code (variant_bits example_uuid) = 1
  /\ UUID_Variant example_uuid = Some 4
  /\ UUID_Variant example_uuid <> Some (spec_variant_code (variant_bits example_uuid)).
Proof.
  repeat split; try reflexivity. vm_compute. discriminate.
Qed.

(** C10: the parser checks neither version nor variant.  The string of 32
    zero digits is accepted, and the identifier it yields has
    [Version() = 0] and [Variant() = 0], neither of them 1. *)
Theorem C10_parsing_does_not_validate :
  let s := "00000000000000000000000000000000"%string in
  String.length s = 32%nat
  /\ all_chars is_hex_digit s = true
  /\ NewFromString s = inl (repeat x00 16)
  /\ UUID_Version (repeat x00 16) = Some 0
  /\ UUID_Variant (repeat x00 16) = Some 0
  /\ UUID_Version (repeat x00 16) <> Some 1
  /\ UUID_Variant (repeat x00 16) <> Some 1.
Proof.
  cbv zeta. repeat split; try (vm_compute; reflexivity); vm_compute; discriminate.
Qed.

(** ** Hexadecimal text *)

Section Hex.

Ltac each_ascii c := destruct c as [[] [] [] [] [] [] [] []].

Lemma fromHexChar_spec c :
  hex.fromHexChar (byte_of_ascii c)
  = if is_hex_digit c then Some (hex_digit_value c) else None.
Proof. each_ascii c; vm_compute; reflexivity. Qed.

Lemma hex_digit_value_range c :
  is_hex_digit c = true -> 0 <= hex_digit_value c < 16.
Proof. each_ascii c; vm_compute; intuition discriminate. Qed.

Lemma lower_is_hex c : is_lower_hex_digit c = true -> is_hex_digit c = true.
Proof.
  unfold is_lower_hex_digit, is_hex_digit. intros ->. reflexivity.
Qed.

Lemma assemble_byte a b :
  0 <= a < 16 -> 0 <= b < 16 ->
  Z.lor (uint8 (Z.shiftl a 4)) b = 16 * a + b.
Proof.
  intros Ha Hb. unfold uint8.
  rewrite Z.shiftl_mul_pow2 by lia. rewrite Z.mod_small by lia.
  rewrite Z.or_to_plus; [lia |].
  rewrite <- (Z.mod_small b (2 ^ 4)) by lia.
  replace (a * 2 ^ 4) with (Z.shiftl a 4) by (rewrite Z.shiftl_mul_pow2; lia).
  bits.
Qed.

(** Induction on strings two characters at a time. *)
Lemma string_pair_ind (P : string -> Prop) :
  P EmptyString ->
  (forall c, P (String c EmptyString)) ->
  (forall c1 c2 s, P s -> P (String c1 (String c2 s))) ->
  forall s, P s.
Proof.
  intros H0 H1 H2 s.
  assert (H : P s /\ forall c, P (String c s)).
  { induction s as [| c s [IHs IHc]].
    - split; [exact H0 | exact H1].
    - split; [apply IHc |]. intros c'. apply H2, IHs. }
  apply H.
Qed.

Lemma DecodeString_ok s :
  Nat.even (String.length s) = true -> all_chars is_hex_digit s = true ->
  hex.DecodeString s = (spec_decode s, None).
Proof.
  unfold hex.DecodeString.
  induction s as [| c | c1 c2 s IH] using string_pair_ind; intros Hlen Hall.
  - reflexivity.
  - discriminate Hlen.
  - cbn [all_chars] in Hall.
    apply andb_prop in Hall. destruct Hall as [H1 Hall].
    apply andb_prop in Hall. destruct Hall as [H2 Hall].
    change (list_byte_of_string (String c1 (String c2 s)))
      with (byte_of_ascii c1 :: byte_of_ascii c2 :: list_byte_of_string s).
    cbn [hex.Decode spec_decode].
    rewrite !fromHexChar_spec, H1, H2.
    rewrite (IH Hlen Hall).
    rewrite assemble_byte by (apply hex_digit_value_range; assumption).
    reflexivity.
Qed.

Lemma DecodeString_error s :
  Nat.even (String.length s) = false \/ all_chars is_hex_digit s = false ->
  exists dst err, hex.DecodeString s = (dst, Some err).
Proof.
  unfold hex.DecodeString.
  induction s as [| c | c1 c2 s IH] using string_pair_ind; intros H.
  - destruct H; discriminate.
  - change (list_byte_of_string (String c EmptyString)) with [byte_of_ascii c].
    cbn [hex.Decode]. destruct (hex.fromHexChar (byte_of_ascii c));
      do 2 eexists; reflexivity.
  - change (list_byte_of_string (String c1 (String c2 s)))
      with (byte_of_ascii c1 :: byte_of_ascii c2 :: list_byte_of_string s).
    cbn [hex.Decode]. rewrite !fromHexChar_spec.
    destruct (is_hex_digit c1) eqn:H1; [| do 2 eexists; reflexivity].
    destruct (is_hex_digit c2) eqn:H2; [| do 2 eexists; reflexivity].
    destruct IH as (dst & err & ->).
    + cbn [all_chars String.length Nat.even] in H.
      rewrite H1, H2 in H. exact H.
    + do 2 eexists; reflexivity.
Qed.

Lemma spec_decode_length s :
  Nat.even (String.length s) = true ->
  (2 * List.length (spec_decode s) = String.length s)%nat.
Proof.
  induction s as [| c | c1 c2 s IH] using string_pair_ind; intros H.
  - reflexivity.
  - discriminate H.
  - cbn [spec_decode List.length String.length]. specialize (IH H). lia.
Qed.

Lemma Replace1_dash s : strings.Replace1 s "-" "" = strip_dashes s.
Proof.
  induction s as [| c s IH]; cbn [strings.Replace1 strip_dashes].
  - reflexivity.
  - rewrite IH. destruct (Ascii.eqb c "-"); reflexivity.
Qed.

Lemma DecodedLen_16 n :
  (hex.DecodedLen (Z.of_nat n) =? 16) = ((n =? 32) || (n =? 33))%nat.
Proof.
  unfold hex.DecodedLen.
  destruct (Z.eqb_spec (Z.quot (Z.of_nat n) 2) 16) as [E | E];
    destruct (Nat.eqb_spec n 32); destruct (Nat.eqb_spec n 33);
    try reflexivity; exfalso;
    revert E; Z.to_euclidean_division_equations; lia.
Qed.

(** When [NewFromString] succeeds, and with what. *)
Lemma NewFromString_inl s u :
  NewFromString s = inl u
  <-> String.length (strip_dashes s) = 32%nat
      /\ all_chars is_hex_digit (strip_dashes s) = true
      /\ u = spec_decode (strip_dashes s).
Proof.
  unfold NewFromString. rewrite Replace1_dash, DecodedLen_16.
  set (d := strip_dashes s).
  destruct (Nat.eqb_spec (String.length d) 32) as [H32 | H32].
  - cbn [orb negb].
    destruct (all_chars is_hex_digit d) eqn:Hall.
    + rewrite DecodeString_ok by (rewrite ?H32; reflexivity || assumption).
      split.
      * intros E. repeat split; congruence.
      * intros (_ & _ & ->). reflexivity.
    + destruct (DecodeString_error d (or_intror Hall)) as (dst & err & ->).
      split; [discriminate | intros (_ & H & _); discriminate].
  - destruct (Nat.eqb_spec (String.length d) 33) as [H33 | H33].
    + cbn [orb negb].
      destruct (DecodeString_error d) as (dst & err & ->).
      { left. rewrite H33. reflexivity. }
      split; [discriminate | intros (H & _); lia].
    + cbn [orb negb]. split; [discriminate | intros (H & _); lia].
Qed.

Lemma NewFromString_inr s :
  (exists e, NewFromString s = inr e)
  <-> ~ (String.length (strip_dashes s) = 32%nat
         /\ all_chars is_hex_digit (strip_dashes s) = true).
Proof.
  split.
  - intros (e & E) (H1 & H2).
    assert (H : NewFromString s = inl (spec_decode (strip_dashes s)))
      by (apply NewFromString_inl; auto).
    congruence.
  - intros H. destruct (NewFromString s) as [u | e] eqn:E.
    + apply NewFromString_inl in E. destruct E as (H1 & H2 & _).
      exfalso. apply H. split; assumption.
    + exists e. reflexivity.
Qed.

Lemma strip_dashes_app a b :
  strip_dashes (a ++ b) = (strip_dashes a ++ strip_dashes b)%string.
Proof.
  induction a as [| c a IH]; cbn [append strip_dashes].
  - reflexivity.
  - rewrite IH. destruct (Ascii.eqb c "-"); reflexivity.
Qed.

End Hex.

(** C7: [NewFromString(s)] succeeds exactly when what is left of [s] after
    every dash is removed is 32 hexadecimal digits, and then returns the 16
    bytes those digits denote; otherwise it returns an error.  The dashes
    of [s] play no part: inserting one anywhere changes neither outcome. *)
Theorem C7_NewFromString_accepts_exactly s :
  (forall u,
      NewFromString s = inl u
      <-> String.length (strip_dashes s) = 32%nat
          /\ all_chars is_hex_digit (strip_dashes s) = true
          /\ u = spec_decode (strip_dashes s))
  /\ ((exists e, NewFromString s = inr e)
      <-> ~ (String.length (strip_dashes s) = 32%nat
             /\ all_chars is_hex_digit (strip_dashes s) = true))
  /\ (forall u, NewFromString s = inl u -> List.length u = 16%nat)
  /\ (forall a b u,
        s = (a ++ b)%string ->
        (NewFromString (a ++ "-" ++ b) = inl u <-> NewFromString s = inl u)).
Proof.
  split; [| split; [| split]].
  - intros u. apply NewFromString_inl.
  - apply NewFromString_inr.
  - intros u E. apply NewFromString_inl in E. destruct E as (Hlen & _ & ->).
    pose proof (spec_decode_length (strip_dashes s)) as H.
    rewrite Hlen in H. specialize (H eq_refl). lia.
  - intros a b u ->.
    rewrite !NewFromString_inl, !strip_dashes_app.
    change (strip_dashes "-") with EmptyString.
    reflexivity.
Qed.

(** ** Formatting *)

Section Format.

Lemma hextable_high b :
  ascii_of_byte (hex.hextable_at (Z.shiftr (byte_val b) 4))
  = lower_hex_digit (byte_val b / 16).
Proof. destruct b; vm_compute; reflexivity. Qed.

Lemma hextable_low b :
  ascii_of_byte (hex.hextable_at (Z.land (byte_val b) 0x0f))
  = lower_hex_digit (byte_val b mod 16).
Proof. destruct b; vm_compute; reflexivity. Qed.

Lemma EncodeToString_spec_hex u : hex.EncodeToString u = spec_hex u.
Proof.
  unfold hex.EncodeToString.
  induction u as [| b u IH]; cbn [hex.Encode spec_hex].
  - reflexivity.
  - change (string_of_list_byte (?x :: ?y :: ?l))
      with (String (ascii_of_byte x) (String (ascii_of_byte y) (string_of_list_byte l))).
    rewrite IH, hextable_high, hextable_low. reflexivity.
Qed.

Lemma digits_of_byte b :
  is_lower_hex_digit (lower_hex_digit (byte_val b / 16)) = true
  /\ is_lower_hex_digit (lower_hex_digit (byte_val b mod 16)) = true
  /\ Ascii.eqb (lower_hex_digit (byte_val b / 16)) "-" = false
  /\ Ascii.eqb (lower_hex_digit (byte_val b mod 16)) "-" = false
  /\ to_byte (16 * hex_digit_value (lower_hex_digit (byte_val b / 16))
              + hex_digit_value (lower_hex_digit (byte_val b mod 16))) = b.
Proof. destruct b; vm_compute; repeat split; reflexivity. Qed.

Lemma spec_hex_app u v : spec_hex (u ++ v) = (spec_hex u ++ spec_hex v)%string.
Proof.
  induction u as [| b u IH]; cbn [app spec_hex append].
  - reflexivity.
  - rewrite IH. reflexivity.
Qed.

Lemma spec_hex_length u : String.length (spec_hex u) = (2 * List.length u)%nat.
Proof.
  induction u as [| b u IH]; cbn [spec_hex String.length List.length].
  - reflexivity.
  - rewrite IH. lia.
Qed.

Lemma append_length a b :
  String.length (a ++ b) = (String.length a + String.length b)%nat.
Proof.
  induction a as [| c a IH]; cbn [append String.length].
  - reflexivity.
  - rewrite IH. reflexivity.
Qed.

Lemma spec_hex_lower u : all_chars is_lower_hex_digit (spec_hex u) = true.
Proof.
  induction u as [| b u IH]; cbn [spec_hex all_chars].
  - reflexivity.
  - destruct (digits_of_byte b) as (-> & -> & _). exact IH.
Qed.

Lemma all_chars_weaken (p q : ascii -> bool) s :
  (forall c, p c = true -> q c = true) ->
  all_chars p s = true -> all_chars q s = true.
Proof.
  intros Hpq. induction s as [| c s IH]; cbn [all_chars].
  - reflexivity.
  - intros H. apply andb_prop in H. destruct H as [Hc Hs].
    rewrite (Hpq c Hc), (IH Hs). reflexivity.
Qed.

Lemma strip_dashes_spec_hex u : strip_dashes (spec_hex u) = spec_hex u.
Proof.
  induction u as [| b u IH]; cbn [spec_hex strip_dashes].
  - reflexivity.
  - destruct (digits_of_byte b) as (_ & _ & -> & -> & _).
    rewrite IH. reflexivity.
Qed.

Lemma spec_decode_spec_hex u : spec_decode (spec_hex u) = u.
Proof.
  induction u as [| b u IH]; cbn [spec_hex spec_decode].
  - reflexivity.
  - destruct (digits_of_byte b) as (_ & _ & _ & _ & ->).
    rewrite IH. reflexivity.
Qed.

(** Parsing the digits of [u], with or without dashes between them. *)
Lemma NewFromString_digits u s :
  List.length u = 16%nat -> strip_dashes s = spec_hex u ->
  NewFromString s = inl u.
Proof.
  intros Hlen Hs. apply NewFromString_inl. rewrite Hs.
  split; [rewrite spec_hex_length, Hlen; reflexivity |].
  split; [| symmetry; apply spec_decode_spec_hex].
  apply (all_chars_weaken is_lower_hex_digit); [apply lower_is_hex |].
  apply spec_hex_lower.
Qed.

Lemma strip_dashes_canonical u :
  List.length u = 16%nat -> strip_dashes (spec_canonical u) = spec_hex u.
Proof.
  intros H. unfold spec_canonical.
  rewrite !strip_dashes_app, !strip_dashes_spec_hex.
  change (strip_dashes "-") with EmptyString. cbn [append].
  rewrite <- !spec_hex_app. f_equal.
  do 16 (destruct u as [| ? u]; [discriminate H |]).
  destruct u; [reflexivity | discriminate H].
Qed.

Lemma String_canonical u :
  List.length u = 16%nat -> UUID_String u = Some (spec_canonical u).
Proof.
  intros H. unfold UUID_String, UUID_Hex, spec_canonical.
  rewrite EncodeToString_spec_hex.
  do 16 (destruct u as [| ? u]; [discriminate H |]).
  destruct u; [| discriminate H].
  cbn [spec_hex firstn skipn].
  repeat match goal with
         | |- context [ lower_hex_digit ?x ] =>
             generalize (lower_hex_digit x); intro
         end.
  reflexivity.
Qed.

End Format.

(** C8: for every 16-byte identifier [u], [String()] returns the lowercase
    hexadecimal digits of [u] grouped 8-4-4-4-12 with dashes between the
    groups; [NewFromString] applied to that text succeeds and returns [u];
    and the 32 digits without the dashes, which are [u.Hex()], parse to the
    same identifier. *)
Theorem C8_String_roundtrip u :
  List.length u = 16%nat ->
  UUID_String u = Some (spec_canonical u)
  /\ String.length (spec_canonical u) = 36%nat
  /\ all_chars is_lower_hex_digit (strip_dashes (spec_canonical u)) = true
  /\ NewFromString (spec_canonical u) = inl u
  /\ strip_dashes (spec_canonical u) = UUID_Hex u
  /\ NewFromString (UUID_Hex u) = inl u.
Proof.
  intros H.
  pose proof (strip_dashes_canonical u H) as Hstrip.
  split; [apply String_canonical, H |].
  split.
  { unfold spec_canonical. rewrite !append_length, !spec_hex_length.
    do 16 (destruct u as [| ? u]; [discriminate H |]).
    destruct u; [reflexivity | discriminate H]. }
  split; [rewrite Hstrip; apply spec_hex_lower |].
  split; [apply NewFromString_digits; assumption |].
  unfold UUID_Hex. rewrite EncodeToString_spec_hex.
  split; [exact Hstrip |].
  apply NewFromString_digits; [exact H | apply strip_dashes_spec_hex].
Qed.

Lemma C8_String_roundtrip_witness :
  List.length example_uuid = 16%nat
  /\ UUID_String example_uuid = Some example_string
  /\ NewFromString example_string = inl example_uuid
  /\ NewFromString (UUID_Hex example_uuid) = inl example_uuid.
Proof.
  split; [reflexivity |].
  pose proof (C8_String_roundtrip example_uuid eq_refl) as (H1 & _ & _ & H2 & _ & H3).
  split; [exact H1 |]. split; [exact H2 | exact H3].
Defined.

(** * Further properties *)

(** ** Start-up *)

Section Init.

Lemma init_retry_count i : forall reads buf n,
  (n <= 8)%nat -> fst (init_retry i reads buf n) = gathered reads i n.
Proof.
  induction i as [| i IH]; intros reads buf n Hn; cbn [init_retry gathered].
  - reflexivity.
  - destruct (Nat.ltb_spec n 8) as [Hlt | Hge].
    + unfold rand_Read. rewrite IH.
      * f_equal. rewrite length_firstn. lia.
      * rewrite length_firstn. lia.
    + cbn [fst]. replace (Nat.min 8 (n + List.length (hd [] reads))) with n by lia.
      clear IH buf. revert reads. induction i as [| i IHi]; intros reads.
      * reflexivity.
      * cbn [gathered].
        replace (Nat.min 8 (n + List.length (hd [] (tl reads)))) with n by lia.
        apply IHi.
Qed.

Lemma gathered_sum tries : forall reads n,
  (n <= 8)%nat ->
  gathered reads tries n
  = Nat.min 8 (n + list_sum (map (@List.length byte) (firstn tries reads))).
Proof.
  induction tries as [| tries IH]; intros reads n Hn; cbn [gathered].
  - cbn [firstn map list_sum fold_right]. lia.
  - rewrite IH by lia. destruct reads as [| r reads].
    + cbn [hd tl firstn map list_sum fold_right List.length].
      destruct tries; cbn [firstn map list_sum fold_right]; lia.
    + cbn [hd tl firstn map].
      change (list_sum (List.length r :: ?l)) with (List.length r + list_sum l)%nat.
      lia.
Qed.

(** What [init] does once the reads are over. *)
Lemma init_after_reads reads :
  exists buf,
    List.length buf = 256%nat
    /\ init reads
       = if (gathered reads 9 0 <? 8)%nat then None
         else
           let buf1 := set_byte buf 0
             (to_byte (uint8 (Z.lor (Z.land (byte_val (nth 0 buf x00)) 0x1f)
                                    (Z.shiftl 1 5)))) in
           let buf2 := set_byte buf1 2
             (to_byte (uint8 (Z.lor (uint8 (Z.shiftl (byte_val (nth 2 buf1 x00)) 2))
                                    0x03))) in
           csan <- BigEndian.Uint64 buf2 ;;
           Some {| randBuf := buf2; randBufOffset := 0; clockSeqAndNode := csan;
                   clockSeq := uint16 (Z.land (Z.shiftr csan 48) 0x1fff);
                   nodeRand := uint16 (Z.land csan 0xffff) |}.
Proof.
  unfold init.
  pose proof (rand_Read_length (hd [] reads) (make (Z.to_nat randBufCap)) 0 8
                ltac:(apply Nat.leb_le; reflexivity)) as H0.
  assert (Hn0 : fst (rand_Read (hd [] reads) (make (Z.to_nat randBufCap)) 0 8)
                = Nat.min 8 (0 + List.length (hd [] reads))).
  { unfold rand_Read. cbn [fst]. rewrite length_firstn. lia. }
  destruct (rand_Read (hd [] reads) (make (Z.to_nat randBufCap)) 0 8)
    as [n0 buf0]. cbn [fst snd] in H0, Hn0.
  pose proof (init_retry_length 8 (tl reads) buf0 n0
                ltac:(rewrite H0; apply Nat.leb_le; reflexivity)) as H1.
  pose proof (init_retry_count 8 (tl reads) buf0 n0 ltac:(lia)) as Hn.
  destruct (init_retry 8 (tl reads) buf0 n0) as [n buf]. cbn [fst snd] in H1, Hn.
  exists buf. split.
  - rewrite H1, H0. reflexivity.
  - change (gathered reads 9 0)
      with (gathered (tl reads) 8 (Nat.min 8 (0 + List.length (hd [] reads)))).
    rewrite <- Hn0, <- Hn. reflexivity.
Qed.

(** Bits of a big-endian word read off its bytes. *)
Lemma Uint64_marker b0 b1 b2 b3 b4 b5 b6 b7 rest w :
  BigEndian.Uint64 (b0 :: b1 :: b2 :: b3 :: b4 :: b5 :: b6 :: b7 :: rest) = Some w ->
  marker_bits w = Z.land (byte_val b2) 0x03.
Proof.
  cbn [BigEndian.Uint64]. intros E. apply Some_inj in E. subst w.
  unfold marker_bits.
  rewrite <- (to_byte_byte_val b0), <- (to_byte_byte_val b1),
    <- (to_byte_byte_val b2), <- (to_byte_byte_val b3),
    <- (to_byte_byte_val b4), <- (to_byte_byte_val b5),
    <- (to_byte_byte_val b6), <- (to_byte_byte_val b7).
  rewrite !byte_val_to_byte.
  generalize (byte_val b0), (byte_val b1), (byte_val b2), (byte_val b3),
    (byte_val b4), (byte_val b5), (byte_val b6), (byte_val b7).
  intros v0 v1 v2 v3 v4 v5 v6 v7.
  change 0x03 with (Z.ones 2). bits.
Qed.

Lemma marker_byte r2 :
  Z.land (byte_val (to_byte (uint8 (Z.lor (uint8 (Z.shiftl r2 2)) 0x03)))) 0x03 = 3.
Proof.
  rewrite byte_val_to_byte. unfold uint8.
  transitivity (Z.ones 2); [| reflexivity].
  change 0x03 with (Z.ones 2). bits.
Qed.

Lemma land_mask_small z k : 0 <= k <= 16 -> uint16 (Z.land z (Z.ones k)) = Z.land z (Z.ones k).
Proof.
  intros Hk. unfold uint16. bits.
Qed.

End Init.

(** X1: [init] panics exactly when its first read and its eight retries
    gather fewer than eight bytes, that is, when the first nine deliveries
    of the entropy source hold fewer than eight bytes in all. *)
Theorem init_panics_iff_short_of_entropy reads :
  init reads = None
  <-> (list_sum (map (@List.length byte) (firstn 9 reads)) < 8)%nat.
Proof.
  destruct (init_after_reads reads) as (buf & Hlen & ->).
  rewrite (gathered_sum 9 reads 0) by lia.
  destruct (Nat.ltb_spec (Nat.min 8 (0 + list_sum (map (@List.length byte) (firstn 9 reads)))) 8)
    as [Hlt | Hge].
  - split; [lia | reflexivity].
  - split; [| lia].
    do 8 (destruct buf as [| ? buf]; [discriminate Hlen |]).
    cbv zeta. cbn [set_byte store firstn skipn app nth List.length Nat.add].
    cbn [BigEndian.Uint64]. discriminate.
Qed.

Lemma init_builds reads g :
  init reads = Some g ->
  randBufOffset g = 0
  /\ counters_agree g
  /\ Z.shiftr (clockSeqAndNode g) 61 = 1
  /\ marker_bits (clockSeqAndNode g) = 3
  /\ Gen_ok g.
Proof.
  intros E. pose proof (init_ok reads g E) as Hok.
  destruct (init_after_reads reads) as (buf & Hlen & E').
  rewrite E in E'.
  destruct (gathered reads 9 0 <? 8)%nat; [discriminate E' |].
  do 8 (destruct buf as [| ? buf]; [discriminate Hlen |]).
  cbv zeta in E'.
  cbn [set_byte store firstn skipn app nth List.length Nat.add] in E'.
  match type of E' with
  | _ = (csan <- BigEndian.Uint64 ?l ;; _) =>
      destruct (BigEndian.Uint64 l) as [csan |] eqn:Ew; [| discriminate E']
  end.
  apply Uint64_marker in Ew. rewrite marker_byte in Ew.
  apply Some_inj in E'. subst g.
  split; [reflexivity |].
  split; [| split; [exact (ok_variant _ Hok) | split; [exact Ew | exact Hok]]].
  unfold counters_agree. cbn [clockSeq nodeRand clockSeqAndNode].
  change 0x1fff with (Z.ones 13). change 0xffff with (Z.ones 16).
  rewrite !land_mask_small by lia. split; reflexivity.
Qed.

(** X2: the state [init] builds has the pool cursor at 0, counters that
    agree with the register, the variant bits 001 and the local and
    multicast marker bits 11, and satisfies the generator's invariant. *)
Theorem init_state reads g :
  init reads = Some g ->
  randBufOffset g = 0
  /\ counters_agree g
  /\ Z.shiftr (clockSeqAndNode g) 61 = 1
  /\ marker_bits (clockSeqAndNode g) = 3
  /\ Gen_ok g.
Proof. apply init_builds. Qed.

Lemma init_state_witness :
  init zero_seed = Some gen0 /\ marker_bits (clockSeqAndNode gen0) = 3.
Proof.
  assert (E : init zero_seed = Some gen0) by (vm_compute; reflexivity).
  split; [exact E |].
  exact (proj1 (proj2 (proj2 (proj2 (init_state zero_seed gen0 E))))).
Defined.

(** ** Invariants of the register *)

Ltac set_node_masks :=
  unfold marker_bits; change 0x03 with (Z.ones 2);
  unfold set_node, SetNodeId; cbn [clockSeqAndNode];
  repeat match goal with
         | |- context [ if ?c then _ else _ ] => destruct c
         end;
  cbn [snd clockSeqAndNode]; masks.

Section RegisterInvariants.

Lemma repack_nodeRand csan cs nr :
  0 <= cs < 2 ^ 13 -> 0 <= nr < 2 ^ 16 ->
  Z.land (repack csan cs nr) 0xffff = nr.
Proof.
  intros Hcs Hnr.
  rewrite <- (Z.mod_small nr (2 ^ 16)) at 2 by lia.
  rewrite <- (Z.mod_small cs (2 ^ 13)), <- (Z.mod_small nr (2 ^ 16)) by lia.
  masks. bits.
Qed.

Lemma repack_marker csan cs nr :
  0 <= cs < 2 ^ 13 -> 0 <= nr < 2 ^ 16 ->
  marker_bits (repack csan cs nr) = marker_bits csan.
Proof.
  intros Hcs Hnr.
  rewrite <- (Z.mod_small cs (2 ^ 13)), <- (Z.mod_small nr (2 ^ 16)) by lia.
  unfold marker_bits. change 0x03 with (Z.ones 2). masks. bits.
Qed.

Lemma set_node_marker csan v : marker_bits (set_node csan v) = marker_bits csan.
Proof. set_node_masks; bits. Qed.

Lemma set_node_clock csan v :
  Z.land (Z.shiftr (set_node csan v) 48) 0x1fff = Z.land (Z.shiftr csan 48) 0x1fff.
Proof. set_node_masks; bits. Qed.

Lemma set_node_low csan v :
  Z.land (set_node csan v) 0xffff = Z.land csan 0xffff.
Proof. set_node_masks; bits. Qed.

(** The shape of one generator call from a state that satisfies the
    invariant. *)
Lemma generate_shape c g :
  Gen_ok g ->
  exists cs nr buf off,
    generate c g
    = Some (timestamp_fields
              match c with CallNew now _ | CallNewCrypto now _ => now end
              ++ BigEndian.PutUint64 (repack (clockSeqAndNode g) cs nr),
            {| randBuf := buf; randBufOffset := off;
               clockSeqAndNode := repack (clockSeqAndNode g) cs nr;
               clockSeq := cs; nodeRand := nr |})
    /\ 0 <= cs < 2 ^ 13 /\ 0 <= nr < 2 ^ 16.
Proof.
  intros Hok. destruct c as [now rnd | now chunk]; cbn [generate].
  - pose proof (New_nodeRand_range now rnd g (ok_typed g Hok)) as Hnr.
    rewrite New_eq in Hnr |- *. cbn [snd nodeRand] in Hnr.
    do 4 eexists. split; [reflexivity |]. split; [| exact Hnr].
    apply Z.mod_pos_bound. lia.
  - destruct (NewCrypto_eq now chunk g Hok) as (val & buf & off & E & _).
    cbv zeta in E.
    do 4 eexists. split; [exact E |].
    split; [apply clockSeq_field_range | apply uint16_range].
Qed.

Lemma generated_length now v :
  List.length (timestamp_fields now ++ BigEndian.PutUint64 v) = 16%nat.
Proof.
  rewrite length_app, timestamp_fields_length. reflexivity.
Qed.

Lemma generated_byte_10 now v :
  byte_val (nth 10 (timestamp_fields now ++ BigEndian.PutUint64 v) x00)
  = Z.shiftr v 40 mod 2 ^ 8.
Proof.
  rewrite app_nth2 by (rewrite timestamp_fields_length; lia).
  rewrite timestamp_fields_length.
  cbn [Nat.sub BigEndian.PutUint64 nth].
  apply byte_val_to_byte.
Qed.

End RegisterInvariants.

Lemma reachable_invariant g :
  reachable g ->
  marker_bits (clockSeqAndNode g) = 3 /\ counters_agree g.
Proof.
  induction 1 as [reads g E | nodeId g Hn Hr IH | c g u g' Hr IH E].
  - destruct (init_builds reads g E) as (_ & Hc & _ & Hm & _). split; assumption.
  - destruct IH as [Hm [Hcs Hnr]]. rewrite SetNodeId_eq.
    unfold counters_agree. cbn [clockSeqAndNode clockSeq nodeRand].
    rewrite set_node_marker, set_node_clock, set_node_low.
    repeat split; assumption.
  - destruct IH as [Hm _].
    destruct (generate_shape c g (reachable_ok g Hr))
      as (cs & nr & buf & off & E' & Hcs & Hnr).
    rewrite E' in E. apply Some_inj, (f_equal snd) in E. cbn [snd] in E. subst g'.
    unfold counters_agree. cbn [clockSeqAndNode clockSeq nodeRand].
    rewrite repack_marker, repack_clockSeq, repack_nodeRand by assumption.
    repeat split; try reflexivity. exact Hm.
Qed.

(** X3: in every reachable state the local and multicast marker bits of
    the register are 11 and the two counters agree with the register: the
    clock sequence counter is bits 48 to 60, the node tail is bits 0 to 15. *)
Theorem reachable_marker_and_counters g :
  reachable g ->
  marker_bits (clockSeqAndNode g) = 3 /\ counters_agree g.
Proof. apply reachable_invariant. Qed.

Lemma reachable_marker_and_counters_witness :
  reachable (snd (New 5 0 (snd (SetNodeId 0xffffffff gen0))))
  /\ marker_bits (clockSeqAndNode (snd (New 5 0 (snd (SetNodeId 0xffffffff gen0))))) = 3.
Proof.
  assert (Hr : reachable (snd (New 5 0 (snd (SetNodeId 0xffffffff gen0))))).
  { apply (reach_generate (CallNew 5 0) (snd (SetNodeId 0xffffffff gen0))
             (fst (New 5 0 (snd (SetNodeId 0xffffffff gen0))))).
    - apply reach_SetNodeId; [lia | exact reachable_gen0].
    - vm_compute. reflexivity. }
  split; [exact Hr |].
  exact (proj1 (reachable_marker_and_counters _ Hr)).
Defined.

(** X4: from every reachable state, each of the two generators returns an
    identifier of exactly 16 bytes whose node field has the local and
    multicast marker set: the two low bits of byte 10 are 11. *)
Theorem generated_length_and_marker g c :
  reachable g ->
  exists u g',
    generate c g = Some (u, g')
    /\ List.length u = 16%nat
    /\ Z.land (byte_val (nth 10 u x00)) 0x03 = 3.
Proof.
  intros Hr.
  destruct (reachable_invariant g Hr) as [Hm _].
  destruct (generate_shape c g (reachable_ok g Hr))
    as (cs & nr & buf & off & E & Hcs & Hnr).
  do 2 eexists. split; [exact E |].
  split; [apply generated_length |].
  rewrite generated_byte_10.
  rewrite <- Hm, <- (repack_marker (clockSeqAndNode g) cs nr Hcs Hnr).
  unfold marker_bits. change 0x03 with (Z.ones 2). bits.
Qed.

Lemma generated_length_and_marker_witness :
  reachable gen0
  /\ exists u g',
       generate (CallNewCrypto 9 [xde; xad; xbe; xef]) gen0 = Some (u, g')
       /\ List.length u = 16%nat
       /\ Z.land (byte_val (nth 10 u x00)) 0x03 = 3.
Proof.
  split; [exact reachable_gen0 |].
  exact (generated_length_and_marker gen0 (CallNewCrypto 9 [xde; xad; xbe; xef])
           reachable_gen0).
Defined.

(** ** Runs of the fast generator *)

Section NewRuns.

Lemma run_New inputs : forall g,
  Gen_typed g ->
  exists us g',
    run (New_calls inputs) g = Some (us, g')
    /\ List.length us = List.length inputs
    /\ forall i, (i < List.length inputs)%nat ->
         clock_sequence (nth i us [])
         = Some ((clockSeq g + Z.of_nat i + 1) mod 8192).
Proof.
  induction inputs as [| [now rnd] inputs IH]; intros g Hty;
    cbn [New_calls map run generate fst snd].
  - exists [], g. repeat split. intros i Hi. cbn [List.length] in Hi. lia.
  - destruct (New_clock_sequence now rnd g Hty) as [Hw Hc].
    change (2 ^ 13) with 8192 in *.
    destruct (IH (snd (New now rnd g)) (New_typed now rnd g Hty))
      as (us & g' & E & Hlen & Hseq).
    fold (New_calls inputs). rewrite E. cbn [fst snd].
    exists (fst (New now rnd g) :: us), g'.
    split; [reflexivity |]. split; [cbn [List.length]; congruence |].
    intros [| i] Hi; cbn [nth].
    + rewrite Hw. f_equal. f_equal. lia.
    + cbn [List.length] in Hi. rewrite Hseq by lia. rewrite Hc.
      f_equal. rewrite Nat2Z.inj_succ.
      replace ((clockSeq g + 1) mod 8192 + Z.of_nat i + 1)
        with ((clockSeq g + 1) mod 8192 + (Z.of_nat i + 1)) by lia.
      rewrite Z.add_mod_idemp_l by lia. f_equal. lia.
Qed.

Lemma to_byte_mod z z' : z mod 2 ^ 8 = z' mod 2 ^ 8 -> to_byte z = to_byte z'.
Proof.
  intros H. apply (f_equal to_byte) in H.
  unfold to_byte, uint8 in *. rewrite !Z.mod_mod in H by lia. exact H.
Qed.

Lemma tail_bytes now v :
  skipn 14 (timestamp_fields now ++ BigEndian.PutUint64 v)
  = BigEndian.PutUint16 (Z.land v 0xffff).
Proof.
  rewrite skipn_app, timestamp_fields_length.
  rewrite skipn_all2 by (rewrite timestamp_fields_length; lia).
  cbn [Nat.sub BigEndian.PutUint64 BigEndian.PutUint16 skipn app].
  unfold BigEndian.PutUint16.
  f_equal; [| f_equal]; apply to_byte_mod; change 0xffff with (Z.ones 16); bits.
Qed.

End NewRuns.

(** X5: starting from any state whose variables are within their types, a
    run of at most 8192 consecutive calls of [New] returns pairwise
    different identifiers, whatever the clock and the pseudo-random source
    deliver: call number [i] (from 0) carries the clock sequence
    [(clockSeq + i + 1) mod 8192]. *)
Theorem New_run_distinct inputs g :
  Gen_typed g ->
  Z.of_nat (List.length inputs) <= 8192 ->
  exists us g',
    run (New_calls inputs) g = Some (us, g')
    /\ List.length us = List.length inputs
    /\ (forall i, (i < List.length inputs)%nat ->
          clock_sequence (nth i us [])
          = Some ((clockSeq g + Z.of_nat i + 1) mod 8192))
    /\ NoDup us.
Proof.
  intros Hty Hlen.
  destruct (run_New inputs g Hty) as (us & g' & E & Hl & Hseq).
  exists us, g'. repeat split; try assumption.
  apply (NoDup_nth us []). intros i j Hi Hj Heq.
  rewrite Hl in Hi, Hj.
  pose proof (Hseq i Hi) as Hci. pose proof (Hseq j Hj) as Hcj.
  rewrite Heq, Hcj in Hci. apply Some_inj in Hci.
  revert Hci. generalize (clockSeq g). intros c Hci.
  Z.to_euclidean_division_equations. lia.
Qed.

Lemma New_run_distinct_witness :
  Gen_typed gen0
  /\ exists us g',
       run (New_calls [(5, 0); (5, 0); (5, 0); (5, 0)]) gen0 = Some (us, g')
       /\ List.length us = 4%nat
       /\ NoDup us.
Proof.
  assert (Hty : Gen_typed gen0) by (constructor; cbn; lia).
  split; [exact Hty |].
  destruct (New_run_distinct [(5, 0); (5, 0); (5, 0); (5, 0)] gen0 Hty
              ltac:(cbn; lia)) as (us & g' & E & Hl & _ & Hnd).
  exists us, g'. split; [exact E |]. split; [exact Hl | exact Hnd].
Defined.

(** X6: [New] leaves the entropy pool and its cursor alone, keeps the node
    tail while the clock sequence does not wrap, replaces it by the 16 low
    bits of the pseudo-random draw when the clock sequence wraps to 0, and
    writes the node tail in bytes 14 and 15 of the identifier. *)
Theorem New_node_tail now rnd g :
  Gen_typed g ->
  let r := New now rnd g in
  randBuf (snd r) = randBuf g
  /\ randBufOffset (snd r) = randBufOffset g
  /\ ((clockSeq g + 1) mod 8192 <> 0 -> nodeRand (snd r) = nodeRand g)
  /\ ((clockSeq g + 1) mod 8192 = 0 -> nodeRand (snd r) = rnd mod 2 ^ 16)
  /\ skipn 14 (fst r) = BigEndian.PutUint16 (nodeRand (snd r)).
Proof.
  intros Hty r.
  pose proof (New_nodeRand_range now rnd g Hty) as Hnr. fold r in Hnr.
  subst r. rewrite New_eq in *. cbn [fst snd randBuf randBufOffset nodeRand] in *.
  change (2 ^ 13) with 8192 in *.
  split; [reflexivity |]. split; [reflexivity |].
  split; [| split].
  - intros Hne. destruct (Z.eqb_spec ((clockSeq g + 1) mod 8192) 0); [contradiction | reflexivity].
  - intros ->. reflexivity.
  - rewrite tail_bytes. f_equal. apply repack_nodeRand; [| exact Hnr].
    apply Z.mod_pos_bound. lia.
Qed.

Lemma New_node_tail_witness :
  Gen_typed gen0
  /\ nodeRand (snd (New 5 77 gen0)) = nodeRand gen0
  /\ skipn 14 (fst (New 5 77 gen0)) = BigEndian.PutUint16 (nodeRand (snd (New 5 77 gen0))).
Proof.
  assert (Hty : Gen_typed gen0) by (constructor; cbn; lia).
  split; [exact Hty |].
  pose proof (New_node_tail 5 77 gen0 Hty) as H. cbv zeta in H.
  destruct H as (_ & _ & Hkeep & _ & Htail).
  split; [apply Hkeep; vm_compute; discriminate | exact Htail].
Defined.

(** ** Composition of the state-changing operations *)

(** X7: of two successive [SetNodeId] calls only the second counts, and
    [SetNodeId(v)] leaves the same state as [SetNodeId(v & 0x3fffffff)]. *)
Theorem SetNodeId_last_wins v w g :
  snd (SetNodeId v (snd (SetNodeId w g))) = snd (SetNodeId v g)
  /\ snd (SetNodeId (Z.land v 0x3fffffff) g) = snd (SetNodeId v g).
Proof.
  rewrite !SetNodeId_eq. cbn [randBuf randBufOffset clockSeqAndNode clockSeq nodeRand].
  split; f_equal.
  - generalize (clockSeqAndNode g). intros c. set_node_masks; bits.
  - generalize (clockSeqAndNode g). intros c. set_node_masks; bits.
Qed.

(** X8: setting the node id and generating with [New] commute on the
    state: the register, the counters and the pool end the same whichever
    comes first. *)
Theorem SetNodeId_New_commute v now rnd g :
  Gen_typed g ->
  snd (New now rnd (snd (SetNodeId v g))) = snd (SetNodeId v (snd (New now rnd g))).
Proof.
  intros Hty.
  pose proof (New_nodeRand_range now rnd g Hty) as Hnr.
  rewrite New_eq in Hnr. cbn [snd nodeRand] in Hnr.
  rewrite !New_eq, !SetNodeId_eq. cbn [snd].
  rewrite ?SetNodeId_eq. cbn [randBuf randBufOffset clockSeqAndNode clockSeq nodeRand].
  f_equal.
  assert (Hcs : 0 <= (clockSeq g + 1) mod 2 ^ 13 < 2 ^ 13)
    by (apply Z.mod_pos_bound; lia).
  revert Hnr Hcs.
  generalize (if (clockSeq g + 1) mod 2 ^ 13 =? 0 then uint16 rnd else nodeRand g).
  generalize ((clockSeq g + 1) mod 2 ^ 13).
  generalize (clockSeqAndNode g).
  intros c cs nr Hnr Hcs.
  rewrite <- (Z.mod_small cs (2 ^ 13)), <- (Z.mod_small nr (2 ^ 16)) by lia.
  set_node_masks; bits.
Qed.

Lemma SetNodeId_New_commute_witness :
  Gen_typed gen0
  /\ snd (New 5 0 (snd (SetNodeId 0x12345678 gen0)))
     = snd (SetNodeId 0x12345678 (snd (New 5 0 gen0))).
Proof.
  assert (Hty : Gen_typed gen0) by (constructor; cbn; lia).
  split; [exact Hty |].
  exact (SetNodeId_New_commute 0x12345678 5 0 gen0 Hty).
Defined.

(** ** The entropy pool of the cryptographic generator *)

Section Pool.

Lemma slice_store {A : Type} (b data : list A) off :
  0 <= off -> off + Z.of_nat (List.length data) <= Z.of_nat (List.length b) ->
  slice (store b (Z.to_nat off) data) off (off + Z.of_nat (List.length data))
  = Some data.
Proof.
  intros H0 H1. unfold store. apply slice_app3.
  - rewrite length_firstn. lia.
  - lia.
Qed.

Lemma store_nil {A : Type} (b : list A) pos : store b pos [] = b.
Proof.
  unfold store. cbn [app List.length]. rewrite Nat.add_0_r. apply firstn_skipn.
Qed.

Lemma repack_idem csan cs nr :
  0 <= cs < 2 ^ 13 -> 0 <= nr < 2 ^ 16 ->
  repack (repack csan cs nr) cs nr = repack csan cs nr.
Proof.
  intros Hcs Hnr.
  rewrite <- (Z.mod_small cs (2 ^ 13)), <- (Z.mod_small nr (2 ^ 16)) by lia.
  masks. bits.
Qed.

(** [NewCrypto] when the source delivers at least four bytes. *)
Lemma NewCrypto_full now a b c d rest g :
  Gen_ok g ->
  NewCrypto now (a :: b :: c :: d :: rest) g
  = Some (timestamp_fields now
            ++ BigEndian.PutUint64
                 (clockSeqAndNode (crypto_state g [] 0 a b c d)),
          crypto_state g
            (store (randBuf g) (Z.to_nat (randBufOffset g)) [a; b; c; d])
            (if randBufOffset g + 4 >? randBufCap - 4 then 0 else randBufOffset g + 4)
            a b c d).
Proof.
  intros [Hty Hpool Hoff Hvar]. unfold randBufCap in *.
  unfold NewCrypto, rand_Read.
  destruct (slice_some (randBuf g) (randBufOffset g) (randBufOffset g + 4))
    as (w0 & -> & _); [lia | lia |].
  cbn [firstn List.length].
  change (Z.of_nat 4 - 4) with 0. rewrite Z.add_0_r.
  destruct (Z.ltb_spec (randBufOffset g) 0) as [Hneg | _]; [lia |].
  pose proof (slice_store (randBuf g) [a; b; c; d] (randBufOffset g)
                ltac:(lia) ltac:(cbn [List.length]; lia)) as Hs.
  cbn [List.length] in Hs. change (Z.of_nat 4) with 4 in Hs. rewrite Hs.
  cbn [BigEndian.Uint32].
  rewrite put_timestamp_fields by reflexivity.
  rewrite uint64_repack. reflexivity.
Qed.

(** [NewCrypto] when the source delivers nothing and the four pool bytes
    before the cursor are [a b c d]. *)
Lemma NewCrypto_empty now a b c d g :
  Gen_ok g ->
  slice (randBuf g) (randBufOffset g - 4) (randBufOffset g) = Some [a; b; c; d] ->
  NewCrypto now [] g
  = Some (timestamp_fields now
            ++ BigEndian.PutUint64
                 (clockSeqAndNode (crypto_state g [] 0 a b c d)),
          crypto_state g (randBuf g) (randBufOffset g) a b c d).
Proof.
  intros [Hty Hpool Hoff Hvar] Hprev. unfold randBufCap in *.
  assert (H4 : 4 <= randBufOffset g).
  { unfold slice in Hprev.
    destruct (Z.leb_spec 0 (randBufOffset g - 4)); [lia | discriminate Hprev]. }
  unfold NewCrypto, rand_Read.
  destruct (slice_some (randBuf g) (randBufOffset g) (randBufOffset g + 4))
    as (w0 & -> & _); [lia | lia |].
  cbn [firstn List.length]. rewrite store_nil.
  change (Z.of_nat 0 - 4) with (- 4).
  destruct (Z.ltb_spec (randBufOffset g + - 4) 0) as [Hneg | _]; [lia |].
  replace (randBufOffset g + - 4 + 4) with (randBufOffset g) by lia.
  replace (randBufOffset g + - 4) with (randBufOffset g - 4) by lia.
  rewrite Hprev. cbn [BigEndian.Uint32].
  rewrite put_timestamp_fields by reflexivity.
  rewrite uint64_repack.
  destruct (randBufOffset g >? randBufCap - 4) eqn:E.
  - unfold randBufCap in E. rewrite Z.gtb_ltb in E. apply Z.ltb_lt in E. lia.
  - reflexivity.
Qed.

Lemma to_byte_eq z b : z mod 2 ^ 8 = byte_val b -> to_byte z = b.
Proof.
  intros H. rewrite <- (to_byte_byte_val b). apply to_byte_mod.
  rewrite H. symmetry. apply Z.mod_small, byte_val_range.
Qed.

(** The bytes of a register whose variant, clock sequence and node tail
    are known. *)
Lemma register_bytes w a b c d :
  0 <= w < 2 ^ 64 ->
  Z.shiftr w 61 = 1 ->
  Z.land (Z.shiftr w 48) 0x1fff
  = uint16 (Z.land (Z.shiftr (entropy_word a b c d) 16) 0x1fff) ->
  Z.land w 0xffff = uint16 (Z.land (entropy_word a b c d) 0xffff) ->
  byte_val (to_byte (Z.shiftr w 56)) = Z.lor 0x20 (Z.land (byte_val a) 0x1f)
  /\ to_byte (Z.shiftr w 48) = b
  /\ to_byte (Z.shiftr w 8) = c
  /\ to_byte w = d.
Proof.
  intros Hw Hv Hcs Hnr.
  assert (Hhi : Z.shiftr w 56 mod 2 ^ 8
                = Z.lor (Z.shiftl (Z.shiftr w 61) 5)
                        (Z.shiftr (Z.land (Z.shiftr w 48) (Z.ones 13)) 8)).
  { rewrite <- (Z.mod_small w (2 ^ 64)) by lia. bits. }
  assert (Hb : Z.shiftr w 48 mod 2 ^ 8 = Z.land (Z.shiftr w 48) (Z.ones 13) mod 2 ^ 8)
    by bits.
  assert (Hc : Z.shiftr w 8 mod 2 ^ 8 = Z.shiftr (Z.land w (Z.ones 16)) 8 mod 2 ^ 8)
    by bits.
  assert (Hd : w mod 2 ^ 8 = Z.land w (Z.ones 16) mod 2 ^ 8) by bits.
  change 0x1fff with (Z.ones 13) in Hcs. change 0xffff with (Z.ones 16) in Hnr.
  rewrite Hcs, Hv in Hhi. rewrite Hcs in Hb. rewrite Hnr in Hc, Hd.
  clear Hcs Hnr Hv Hw.
  unfold entropy_word, uint16 in *.
  revert Hhi Hb Hc Hd.
  rewrite <- (to_byte_byte_val a), <- (to_byte_byte_val b),
    <- (to_byte_byte_val c), <- (to_byte_byte_val d).
  rewrite !byte_val_to_byte.
  generalize (byte_val a), (byte_val b), (byte_val c), (byte_val d).
  intros va vb vc vd Hhi Hb Hc Hd.
  split; [| split; [| split]].
  - rewrite Hhi. change 0x20 with (Z.shiftl (Z.ones 1) 5).
    change (Z.shiftl 1 5) with (Z.shiftl (Z.ones 1) 5).
    change 0x1f with (Z.ones 5). bits.
  - apply to_byte_mod. rewrite Hb. bits.
  - apply to_byte_mod. rewrite Hc. bits.
  - apply to_byte_mod. rewrite Hd. bits.
Qed.

End Pool.

Section PoolClaims.

Lemma crypto_state_facts g buf off a b c d :
  Gen_ok g ->
  let w := clockSeqAndNode (crypto_state g buf off a b c d) in
  0 <= w < 2 ^ 64
  /\ Z.shiftr w 61 = 1
  /\ Z.land (Z.shiftr w 48) 0x1fff
     = uint16 (Z.land (Z.shiftr (entropy_word a b c d) 16) 0x1fff)
  /\ Z.land w 0xffff = uint16 (Z.land (entropy_word a b c d) 0xffff).
Proof.
  intros Hok. unfold crypto_state. cbn [clockSeqAndNode].
  pose proof (clockSeq_field_range (entropy_word a b c d)) as Hcs.
  pose proof (uint16_range (Z.land (entropy_word a b c d) 0xffff)) as Hnr.
  split; [apply repack_range |].
  split; [rewrite repack_variant, (ok_variant g Hok) by assumption; reflexivity |].
  split; [apply repack_clockSeq | apply repack_nodeRand]; assumption.
Qed.

Lemma generated_tail_nth now v i :
  (8 <= i)%nat ->
  nth i (timestamp_fields now ++ BigEndian.PutUint64 v) x00
  = nth (i - 8) (BigEndian.PutUint64 v) x00.
Proof.
  intros Hi. rewrite app_nth2 by (rewrite timestamp_fields_length; lia).
  rewrite timestamp_fields_length. reflexivity.
Qed.

Lemma crypto_state_register g buf off buf' off' buf'' off'' a b c d :
  clockSeqAndNode (crypto_state (crypto_state g buf off a b c d) buf' off' a b c d)
  = clockSeqAndNode (crypto_state g buf'' off'' a b c d).
Proof.
  unfold crypto_state. cbn [clockSeqAndNode].
  apply repack_idem; [apply clockSeq_field_range | apply uint16_range].
Qed.

Lemma crypto_state_again g buf off a b c d :
  crypto_state (crypto_state g buf off a b c d) buf off a b c d
  = crypto_state g buf off a b c d.
Proof.
  pose proof (crypto_state_register g buf off buf off buf off a b c d) as H.
  unfold crypto_state in *. cbn [clockSeqAndNode] in *. rewrite H. reflexivity.
Qed.

End PoolClaims.

(** X9: from a reachable state, when the entropy source delivers the bytes
    [a b c d] (or more), [NewCrypto] stores them in the pool at the cursor,
    moves the cursor four bytes on (back to 0 once it would pass 252), and
    returns an identifier whose byte 8 is 0x20 with the five low bits of
    [a], whose byte 9 is [b] and whose bytes 14 and 15 are [c] and [d]. *)
Theorem NewCrypto_uses_delivered_bytes now a b c d rest g :
  reachable g ->
  exists u g',
    NewCrypto now (a :: b :: c :: d :: rest) g = Some (u, g')
    /\ byte_val (nth 8 u x00) = Z.lor 0x20 (Z.land (byte_val a) 0x1f)
    /\ nth 9 u x00 = b
    /\ nth 14 u x00 = c
    /\ nth 15 u x00 = d
    /\ randBuf g' = store (randBuf g) (Z.to_nat (randBufOffset g)) [a; b; c; d]
    /\ randBufOffset g'
       = (if randBufOffset g + 4 >? 252 then 0 else randBufOffset g + 4).
Proof.
  intros Hr. pose proof (reachable_ok g Hr) as Hok.
  do 2 eexists. split; [apply NewCrypto_full, Hok |].
  destruct (crypto_state_facts g [] 0 a b c d Hok) as (Hw & Hv & Hcs & Hnr).
  cbv zeta in Hw, Hv, Hcs, Hnr.
  destruct (register_bytes _ a b c d Hw Hv Hcs Hnr) as (H8 & H9 & H14 & H15).
  rewrite !generated_tail_nth by lia.
  cbn [Nat.sub BigEndian.PutUint64 nth].
  repeat split; assumption || reflexivity.
Qed.

Lemma NewCrypto_uses_delivered_bytes_witness :
  reachable gen0
  /\ exists u g',
       NewCrypto 9 [xde; xad; xbe; xef] gen0 = Some (u, g')
       /\ nth 9 u x00 = xad /\ nth 14 u x00 = xbe /\ nth 15 u x00 = xef
       /\ randBufOffset g' = 4.
Proof.
  split; [exact reachable_gen0 |].
  destruct (NewCrypto_uses_delivered_bytes 9 xde xad xbe xef [] gen0 reachable_gen0)
    as (u & g' & E & _ & H9 & H14 & H15 & _ & Hoff).
  exists u, g'. split; [exact E |].
  split; [exact H9 |]. split; [exact H14 |]. split; [exact H15 | exact Hoff].
Defined.

(** X10: when the entropy source delivers nothing, [NewCrypto] decodes the
    four pool bytes before the cursor again.  So after a call that was
    given four fresh bytes (and did not wrap the cursor), a call that is
    given none leaves the state as it is and returns an identifier whose
    clock sequence and node, bytes 8 to 15, repeat those of the call
    before. *)
Theorem NewCrypto_without_entropy_repeats now1 now2 a b c d rest g :
  reachable g ->
  randBufOffset g + 4 <= 252 ->
  exists u1 u2 g1,
    NewCrypto now1 (a :: b :: c :: d :: rest) g = Some (u1, g1)
    /\ NewCrypto now2 [] g1 = Some (u2, g1)
    /\ skipn 8 u2 = skipn 8 u1.
Proof.
  intros Hr Hroom. pose proof (reachable_ok g Hr) as Hok.
  pose proof (NewCrypto_full now1 a b c d rest g Hok) as E1.
  assert (Hoff : (if randBufOffset g + 4 >? randBufCap - 4 then 0
                  else randBufOffset g + 4) = randBufOffset g + 4).
  { unfold randBufCap. destruct (randBufOffset g + 4 >? 256 - 4) eqn:E; [| reflexivity].
    rewrite Z.gtb_ltb in E. apply Z.ltb_lt in E. lia. }
  rewrite Hoff in E1.
  set (buf1 := store (randBuf g) (Z.to_nat (randBufOffset g)) [a; b; c; d]) in *.
  set (g1 := crypto_state g buf1 (randBufOffset g + 4) a b c d) in *.
  pose proof (NewCrypto_ok now1 _ g _ g1 Hok E1) as Hok1.
  assert (Hprev : slice (randBuf g1) (randBufOffset g1 - 4) (randBufOffset g1)
                  = Some [a; b; c; d]).
  { unfold g1, crypto_state. cbn [randBuf randBufOffset].
    replace (randBufOffset g + 4 - 4) with (randBufOffset g) by lia.
    destruct Hok as [_ Hpool Hoff0 _]. unfold randBufCap in *.
    apply (slice_store (randBuf g) [a; b; c; d] (randBufOffset g)).
    - lia.
    - cbn [List.length]. lia. }
  pose proof (NewCrypto_empty now2 a b c d g1 Hok1 Hprev) as E2.
  assert (Hsame : crypto_state g1 (randBuf g1) (randBufOffset g1) a b c d = g1)
    by apply crypto_state_again.
  assert (Hreg : clockSeqAndNode (crypto_state g1 [] 0 a b c d)
                 = clockSeqAndNode (crypto_state g [] 0 a b c d))
    by apply crypto_state_register.
  rewrite Hsame, Hreg in E2.
  do 3 eexists. split; [exact E1 |]. split; [exact E2 |].
  rewrite !skipn_app, !timestamp_fields_length.
  rewrite !skipn_all2 by (rewrite timestamp_fields_length; lia).
  reflexivity.
Qed.

Lemma NewCrypto_without_entropy_repeats_witness :
  reachable gen0
  /\ randBufOffset gen0 + 4 <= 252
  /\ exists u1 u2 g1,
       NewCrypto 9 [xde; xad; xbe; xef] gen0 = Some (u1, g1)
       /\ NewCrypto 10 [] g1 = Some (u2, g1)
       /\ skipn 8 u2 = skipn 8 u1.
Proof.
  split; [exact reachable_gen0 |]. split; [vm_compute; discriminate |].
  exact (NewCrypto_without_entropy_repeats 9 10 xde xad xbe xef [] gen0
           reachable_gen0 ltac:(vm_compute; discriminate)).
Defined.

(** ** The time an identifier carries *)

Section Time.

Lemma Uint32_PutUint32 v rest :
  BigEndian.Uint32 (BigEndian.PutUint32 v ++ rest) = Some (v mod 2 ^ 32).
Proof.
  cbn [BigEndian.Uint32 BigEndian.PutUint32 app].
  rewrite !byte_val_to_byte. f_equal.
  rewrite (lor_next_byte v 8 16), (lor_next_byte v 16 24),
    (lor_next_byte v 24 32) by lia.
  reflexivity.
Qed.

Lemma Uint32_PutUint32_exact v :
  BigEndian.Uint32 (BigEndian.PutUint32 v) = Some (v mod 2 ^ 32).
Proof. rewrite <- (app_nil_r (BigEndian.PutUint32 v)). apply Uint32_PutUint32. Qed.

Lemma Uint16_PutUint16_exact v :
  BigEndian.Uint16 (BigEndian.PutUint16 v) = Some (v mod 2 ^ 16).
Proof. rewrite <- (app_nil_r (BigEndian.PutUint16 v)). apply Uint16_PutUint16. Qed.

Lemma timestamp_fields_eq now :
  timestamp_fields now
  = BigEndian.PutUint32 (uint32 (Z.land (fromUnixNano (int64 now)) 0xffffffff))
    ++ BigEndian.PutUint16
         (uint16 (Z.land (Z.shiftr (fromUnixNano (int64 now)) 32) 0xffff))
    ++ BigEndian.PutUint16 (time_hi_and_version now).
Proof.
  cbv [timestamp_fields put_timestamp store make repeat firstn skipn app
       List.length Nat.add BigEndian.PutUint32 BigEndian.PutUint16
       time_hi_and_version].
  reflexivity.
Qed.

Lemma slice_prefix {A : Type} (b c : list A) hi :
  hi = Z.of_nat (List.length b) -> slice (b ++ c) 0 hi = Some b.
Proof.
  intros ->. apply (slice_app3 [] b c); cbn [List.length]; lia.
Qed.

(** The three timestamp fields put together again. *)
Lemma ticks_reassemble ts :
  0 <= ts < 2 ^ 60 ->
  uint64 (uint64 (uint64 (uint32 (Z.land ts 0xffffffff) mod 2 ^ 32)
                  + uint64 (Z.shiftl
                              (uint64 (uint16 (Z.land (Z.shiftr ts 32) 0xffff) mod 2 ^ 16))
                              32))
          + uint64 (Z.shiftl
                      (uint64 (Z.land
                                 (Z.lor (uint16 (Z.land (Z.shiftr ts 48) 0x0fff))
                                        (Z.shiftl 1 12) mod 2 ^ 16)
                                 0x0fff))
                      48))
  = ts.
Proof.
  intros Hts.
  assert (Hlo : uint64 (uint32 (Z.land ts 0xffffffff) mod 2 ^ 32) = ts mod 2 ^ 32).
  { unfold uint64, uint32. change 0xffffffff with (Z.ones 32). bits. }
  assert (Hmid : uint64 (uint16 (Z.land (Z.shiftr ts 32) 0xffff) mod 2 ^ 16)
                 = Z.shiftr ts 32 mod 2 ^ 16).
  { unfold uint64, uint16. change 0xffff with (Z.ones 16). bits. }
  assert (Hhi : uint64 (Z.land
                          (Z.lor (uint16 (Z.land (Z.shiftr ts 48) 0x0fff))
                                 (Z.shiftl 1 12) mod 2 ^ 16)
                          0x0fff)
                = Z.shiftr ts 48 mod 2 ^ 12).
  { unfold uint64, uint16. change 0x0fff with (Z.ones 12).
    change (Z.shiftl 1 12) with (Z.shiftl (Z.ones 1) 12). bits. }
  rewrite Hlo, Hmid, Hhi. unfold uint64.
  rewrite !Z.shiftl_mul_pow2, !Z.shiftr_div_pow2 by lia.
  change (2 ^ 60) with 1152921504606846976 in Hts.
  change (2 ^ 64) with 18446744073709551616.
  change (2 ^ 48) with 281474976710656.
  change (2 ^ 32) with 4294967296.
  change (2 ^ 16) with 65536.
  change (2 ^ 12) with 4096.
  Z.to_euclidean_division_equations. lia.
Qed.

Lemma int64_add_idem a b : int64 (int64 a + b) = int64 (a + b).
Proof.
  unfold int64. f_equal.
  replace ((a + 2 ^ 63) mod 2 ^ 64 - 2 ^ 63 + b + 2 ^ 63)
    with ((a + 2 ^ 63) mod 2 ^ 64 + b) by lia.
  rewrite Z.add_mod_idemp_l by lia. f_equal. lia.
Qed.

(** [time.Unix] of the quotient and remainder of a nanosecond count denotes
    that count, with the nanoseconds brought into [0, 10^9). *)
Lemma Unix_of_nanoseconds ns :
  in_int64 ns ->
  let t := time.UTC (time.Unix (Z.quot ns 1000000000) (Z.rem ns 1000000000)) in
  time.UnixNano t = ns
  /\ time.sec t = ns / 1000000000
  /\ time.nsec t = ns mod 1000000000.
Proof.
  unfold in_int64. intros Hns. cbv zeta. unfold time.UTC, time.Unix.
  change (2 ^ 63) with 9223372036854775808 in Hns.
  assert (Hq : ns = 1000000000 * Z.quot ns 1000000000 + Z.rem ns 1000000000)
    by apply Z.quot_rem'.
  assert (Hr : - 1000000000 < Z.rem ns 1000000000 < 1000000000).
  { pose proof (Z.rem_bound_abs ns 1000000000 ltac:(lia)). lia. }
  assert (Hsign : 0 <= ns -> 0 <= Z.rem ns 1000000000).
  { intros H. apply Z.rem_nonneg; lia. }
  destruct (Z.ltb_spec (Z.rem ns 1000000000) 0) as [Hneg | Hpos].
  - cbn [orb].
    assert (Hn : Z.quot (Z.rem ns 1000000000) 1000000000 = 0)
      by (apply Z.quot_small_iff; lia).
    rewrite Hn. change (0 * 1000000000) with 0. change (int64 0) with 0.
    rewrite Z.sub_0_r, Z.add_0_r.
    assert (Hqi : in_int64 (Z.quot ns 1000000000))
      by (unfold in_int64; change (2 ^ 63) with 9223372036854775808; lia).
    assert (Hri : in_int64 (Z.rem ns 1000000000))
      by (unfold in_int64; change (2 ^ 63) with 9223372036854775808; lia).
    rewrite (int64_small _ Hqi), (int64_small _ Hri).
    destruct (Z.ltb_spec (Z.rem ns 1000000000) 0) as [_ | Hge]; [| lia].
    unfold time.UnixNano. cbn [time.sec time.nsec].
    rewrite (int64_small (Z.quot ns 1000000000 - 1))
      by (unfold in_int64; change (2 ^ 63) with 9223372036854775808; lia).
    rewrite (int64_small (Z.rem ns 1000000000 + 1000000000))
      by (unfold in_int64; change (2 ^ 63) with 9223372036854775808; lia).
    rewrite int64_add_idem.
    split; [| split].
    + rewrite int64_small
        by (unfold in_int64; change (2 ^ 63) with 9223372036854775808; lia).
      lia.
    + apply (Z.div_unique ns 1000000000 _ (Z.rem ns 1000000000 + 1000000000)); lia.
    + apply (Z.mod_unique ns 1000000000 (Z.quot ns 1000000000 - 1)); lia.
  - assert (Hlt : (Z.rem ns 1000000000 >=? 1000000000) = false)
      by (rewrite Z.geb_leb; apply Z.leb_gt; lia).
    rewrite Hlt. cbn [orb].
    unfold time.UnixNano. cbn [time.sec time.nsec].
    rewrite int64_add_idem.
    split; [| split].
    + rewrite int64_small
        by (unfold in_int64; change (2 ^ 63) with 9223372036854775808; lia).
      lia.
    + apply (Z.div_unique ns 1000000000 _ (Z.rem ns 1000000000)); lia.
    + apply (Z.mod_unique ns 1000000000 (Z.quot ns 1000000000)); lia.
Qed.

(** [Time()] of an identifier whose first eight bytes a generator wrote. *)
Lemma generated_Time now d :
  in_int64 now ->
  exists t,
    UUID_Time (timestamp_fields now ++ d) = Some t
    /\ time.UnixNano t = Z.quot now 100 * 100
    /\ time.sec t = (Z.quot now 100 * 100) / 1000000000
    /\ time.nsec t = (Z.quot now 100 * 100) mod 1000000000.
Proof.
  intros Hnow.
  destruct (quot_100_bounds now Hnow) as (Hq & Hm & Hg).
  assert (Hts : fromUnixNano (int64 now) = Z.quot now 100 + gregorianEpoch).
  { rewrite (int64_small _ Hnow). apply fromUnixNano_exact, Hnow. }
  assert (Hrange : 0 <= Z.quot now 100 + gregorianEpoch < 2 ^ 60).
  { unfold in_int64, gregorianEpoch in *.
    change (2 ^ 63) with 9223372036854775808 in *.
    change (2 ^ 60) with 1152921504606846976.
    revert Hnow. Z.to_euclidean_division_equations. lia. }
  unfold UUID_Time. rewrite timestamp_fields_eq, <- !app_assoc.
  rewrite slice_prefix by reflexivity.
  rewrite Uint32_PutUint32_exact.
  rewrite (slice_app3 (BigEndian.PutUint32 _) (BigEndian.PutUint16 _) _ 4 6)
    by reflexivity.
  rewrite Uint16_PutUint16_exact.
  rewrite (app_assoc (BigEndian.PutUint32 _) (BigEndian.PutUint16 _)).
  rewrite (slice_app3 (BigEndian.PutUint32 _ ++ BigEndian.PutUint16 _)
             (BigEndian.PutUint16 _) d 6 8) by reflexivity.
  rewrite Uint16_PutUint16_exact.
  unfold time_hi_and_version. rewrite Hts.
  rewrite (ticks_reassemble _ Hrange).
  assert (Hin : in_int64 (Z.quot now 100 + gregorianEpoch)) by exact Hg.
  rewrite (int64_small _ Hin).
  assert (Hns : toUnixNano (Z.quot now 100 + gregorianEpoch) = Z.quot now 100 * 100).
  { rewrite toUnixNano_exact.
    - unfold spec_ToUnixNanos. lia.
    - replace (Z.quot now 100 + gregorianEpoch - gregorianEpoch) with (Z.quot now 100) by lia.
      exact Hq.
    - replace (Z.quot now 100 + gregorianEpoch - gregorianEpoch) with (Z.quot now 100) by lia.
      exact Hm. }
  rewrite Hns.
  eexists. split; [reflexivity |].
  exact (Unix_of_nanoseconds (Z.quot now 100 * 100) Hm).
Qed.

End Time.

(** X11: for every reading [now] of the clock that fits 64 bits, the
    identifier either generator returns from a reachable state gives, by
    [Time()], the instant [(now / 100) * 100] nanoseconds after the Unix
    epoch: the clock reading cut down to a multiple of 100 nanoseconds,
    with the nanosecond part in [0, 10^9). *)
Theorem generated_identifier_Time g now :
  reachable g ->
  in_int64 now ->
  (forall rnd,
      exists t,
        UUID_Time (fst (New now rnd g)) = Some t
        /\ time.UnixNano t = Z.quot now 100 * 100
        /\ 0 <= time.nsec t < 1000000000
        /\ time.nsec t mod 100 = 0)
  /\ (forall chunk,
        exists u g' t,
          NewCrypto now chunk g = Some (u, g')
          /\ UUID_Time u = Some t
          /\ time.UnixNano t = Z.quot now 100 * 100
          /\ 0 <= time.nsec t < 1000000000
          /\ time.nsec t mod 100 = 0).
Proof.
  intros Hr Hnow.
  assert (Hall : forall c,
    match c with CallNew n _ | CallNewCrypto n _ => n end = now ->
    exists u g' t,
      generate c g = Some (u, g')
      /\ UUID_Time u = Some t
      /\ time.UnixNano t = Z.quot now 100 * 100
      /\ 0 <= time.nsec t < 1000000000
      /\ time.nsec t mod 100 = 0).
  { intros c Hn.
    destruct (generate_shape c g (reachable_ok g Hr))
      as (cs & nr & buf & off & E & _ & _).
    rewrite Hn in E.
    destruct (generated_Time now
                (BigEndian.PutUint64 (repack (clockSeqAndNode g) cs nr)) Hnow)
      as (t & Et & Hns & _ & Hnsec).
    do 3 eexists. split; [exact E |]. split; [exact Et |]. split; [exact Hns |].
    rewrite Hnsec. split.
    - apply Z.mod_pos_bound. lia.
    - generalize (Z.quot now 100). intros q.
      Z.to_euclidean_division_equations. lia. }
  split.
  - intros rnd.
    destruct (Hall (CallNew now rnd) eq_refl) as (u & g' & t & E & Ht).
    cbn [generate] in E. apply Some_inj, (f_equal fst) in E. cbn [fst] in E.
    rewrite E. exists t. exact Ht.
  - intros chunk. exact (Hall (CallNewCrypto now chunk) eq_refl).
Qed.

Lemma generated_identifier_Time_witness :
  reachable gen0
  /\ in_int64 1700000000123456789
  /\ exists t,
       UUID_Time (fst (New 1700000000123456789 0 gen0)) = Some t
       /\ time.UnixNano t = 1700000000123456700.
Proof.
  split; [exact reachable_gen0 |].
  assert (Hin : in_int64 1700000000123456789) by (unfold in_int64; lia).
  split; [exact Hin |].
  destruct (proj1 (generated_identifier_Time gen0 1700000000123456789
                     reachable_gen0 Hin) 0)
    as (t & Et & Hns & _).
  exists t. split; [exact Et | exact Hns].
Defined.

(** ** Constructors, accessors and formatting at the bounds *)

Section Bounds.


Lemma firstn_16_all (b : list byte) :
  List.length b = 16%nat -> store (make 16) 0 (firstn 16 b) = b.
Proof.
  intros H.
  do 16 (destruct b as [| ? b]; [discriminate H |]).
  destruct b; [reflexivity | discriminate H].
Qed.

Lemma even_double n : Nat.even (2 * n) = true.
Proof.
  induction n as [| n IH]; [reflexivity |].
  replace (2 * S n)%nat with (S (S (2 * n))) by lia. exact IH.
Qed.

End Bounds.

(** X12: [NewFromBytes] succeeds exactly on 16-byte inputs, returning the
    same bytes; on any other length it returns the length error. *)
Theorem NewFromBytes_spec b :
  (List.length b = 16%nat -> NewFromBytes b = inl b)
  /\ (List.length b <> 16%nat -> NewFromBytes b = inr (WrongLength (List.length b))).
Proof.
  unfold NewFromBytes. split; intros H.
  - rewrite H. cbn [Nat.eqb negb]. rewrite firstn_16_all by exact H. reflexivity.
  - destruct (Nat.eqb_spec (List.length b) 16); [contradiction | reflexivity].
Qed.

Lemma NewFromBytes_spec_witness :
  List.length example_uuid = 16%nat /\ NewFromBytes example_uuid = inl example_uuid.
Proof.
  split; [reflexivity |].
  exact (proj1 (NewFromBytes_spec example_uuid) eq_refl).
Defined.

(** X13: for a byte slice of any length, [Hex()] is twice as long, made of
    lowercase hexadecimal digits only, and decodes back to the same bytes
    with [hex.DecodeString]. *)
Theorem Hex_roundtrip u :
  String.length (UUID_Hex u) = (2 * List.length u)%nat
  /\ all_chars is_lower_hex_digit (UUID_Hex u) = true
  /\ hex.DecodeString (UUID_Hex u) = (u, None).
Proof.
  unfold UUID_Hex. rewrite EncodeToString_spec_hex.
  split; [apply spec_hex_length |]. split; [apply spec_hex_lower |].
  rewrite DecodeString_ok.
  - rewrite spec_decode_spec_hex. reflexivity.
  - rewrite spec_hex_length. apply even_double.
  - apply (all_chars_weaken is_lower_hex_digit); [apply lower_is_hex |].
    apply spec_hex_lower.
Qed.

Section FormatBounds.

Ltac hide_digits :=
  repeat match goal with
         | |- context [ lower_hex_digit ?x ] =>
             generalize (lower_hex_digit x); intro
         end.

Lemma String_short u : (List.length u < 16)%nat -> UUID_String u = None.
Proof.
  intros H. unfold UUID_String, UUID_Hex. rewrite EncodeToString_spec_hex.
  do 16 (destruct u as [| ? u];
         [cbn [spec_hex]; hide_digits; reflexivity |]).
  cbn [List.length] in H. lia.
Qed.

Lemma String_long u :
  (16 <= List.length u)%nat ->
  UUID_String u = Some (spec_canonical (firstn 16 u)).
Proof.
  intros H. unfold UUID_String, UUID_Hex, spec_canonical.
  rewrite EncodeToString_spec_hex.
  do 16 (destruct u as [| ? u]; [cbn [List.length] in H; lia |]).
  cbn [spec_hex firstn skipn].
  generalize (spec_hex u). intros tail.
  hide_digits. destruct tail; reflexivity.
Qed.

End FormatBounds.

(** X14: [String()] panics on fewer than 16 bytes; on 16 bytes or more it
    formats the first 16 and ignores the rest, so parsing its result gives
    those first 16 bytes back. *)
Theorem String_bounds u :
  ((List.length u < 16)%nat -> UUID_String u = None)
  /\ ((16 <= List.length u)%nat ->
      UUID_String u = Some (spec_canonical (firstn 16 u))
      /\ UUID_String u = UUID_String (firstn 16 u)
      /\ NewFromString (spec_canonical (firstn 16 u)) = inl (firstn 16 u)).
Proof.
  split; [apply String_short |]. intros H.
  assert (H16 : List.length (firstn 16 u) = 16%nat)
    by (rewrite length_firstn; lia).
  split; [apply String_long, H |]. split.
  - rewrite (String_long u H), (String_canonical _ H16). reflexivity.
  - apply NewFromString_digits; [exact H16 | apply strip_dashes_canonical, H16].
Qed.




(** ** More on parsing *)

Section Parsing.

Ltac each_char c := destruct c as [[] [] [] [] [] [] [] []].

Lemma fold_hex_case_spec c :
  Ascii.eqb (fold_hex_case c) "-" = Ascii.eqb c "-"
  /\ is_hex_digit (fold_hex_case c) = is_hex_digit c
  /\ hex_digit_value (fold_hex_case c) = hex_digit_value c.
Proof. each_char c; vm_compute; repeat split; reflexivity. Qed.

Lemma strip_dashes_fold s :
  strip_dashes (map_string fold_hex_case s)
  = map_string fold_hex_case (strip_dashes s).
Proof.
  induction s as [| c s IH]; cbn [map_string strip_dashes].
  - reflexivity.
  - destruct (fold_hex_case_spec c) as (-> & _ & _).
    destruct (Ascii.eqb c "-"); cbn [map_string]; rewrite IH; reflexivity.
Qed.

Lemma map_string_length f s : String.length (map_string f s) = String.length s.
Proof.
  induction s as [| c s IH]; cbn [map_string String.length]; congruence.
Qed.

Lemma all_hex_fold s :
  all_chars is_hex_digit (map_string fold_hex_case s) = all_chars is_hex_digit s.
Proof.
  induction s as [| c s IH]; cbn [map_string all_chars].
  - reflexivity.
  - destruct (fold_hex_case_spec c) as (_ & -> & _). rewrite IH. reflexivity.
Qed.

Lemma spec_decode_fold s :
  spec_decode (map_string fold_hex_case s) = spec_decode s.
Proof.
  induction s as [| c | c1 c2 s IH] using string_pair_ind;
    cbn [map_string spec_decode].
  - reflexivity.
  - reflexivity.
  - destruct (fold_hex_case_spec c1) as (_ & _ & ->).
    destruct (fold_hex_case_spec c2) as (_ & _ & ->).
    rewrite IH. reflexivity.
Qed.

Lemma DecodeString_bad_digit s :
  Nat.even (String.length s) = true -> all_chars is_hex_digit s = false ->
  exists dst c,
    hex.DecodeString s = (dst, Some (hex.InvalidByteError c))
    /\ is_hex_digit (ascii_of_byte c) = false.
Proof.
  unfold hex.DecodeString.
  induction s as [| c | c1 c2 s IH] using string_pair_ind; intros Hlen Hall.
  - discriminate Hall.
  - discriminate Hlen.
  - change (list_byte_of_string (String c1 (String c2 s)))
      with (byte_of_ascii c1 :: byte_of_ascii c2 :: list_byte_of_string s).
    cbn [hex.Decode]. rewrite !fromHexChar_spec.
    destruct (is_hex_digit c1) eqn:H1.
    + destruct (is_hex_digit c2) eqn:H2.
      * cbn [all_chars] in Hall. rewrite H1, H2 in Hall. cbn [andb] in Hall.
        destruct (IH Hlen Hall) as (dst & c & -> & Hc).
        do 2 eexists. split; [reflexivity | exact Hc].
      * do 2 eexists. split; [reflexivity |].
        rewrite ascii_of_byte_of_ascii. exact H2.
    + do 2 eexists. split; [reflexivity |].
      rewrite ascii_of_byte_of_ascii. exact H1.
Qed.

Lemma all_chars_app p a b :
  all_chars p (a ++ b) = all_chars p a && all_chars p b.
Proof.
  induction a as [| c a IH]; cbn [append all_chars].
  - reflexivity.
  - rewrite IH. apply andb_assoc.
Qed.

End Parsing.

(** X17: [NewFromString] reads upper-case and lower-case hexadecimal
    letters alike: folding the letters A to F of the input to lower case
    changes neither whether it succeeds nor the identifier it returns. *)
Theorem NewFromString_ignores_case s u :
  NewFromString (map_string fold_hex_case s) = inl u <-> NewFromString s = inl u.
Proof.
  rewrite !NewFromString_inl.
  rewrite strip_dashes_fold, map_string_length, all_hex_fold, spec_decode_fold.
  reflexivity.
Qed.

(** X18: which error [NewFromString] returns.  With [n] characters left
    after the dashes are removed: for [n] other than 32 and 33 it is the
    "not a valid UUID" error carrying the input; for [n = 33] the input
    passes the length check and the error comes from the hexadecimal
    decoder; for [n = 32] with a character that is no hexadecimal digit the
    decoder reports such a character. *)
Theorem NewFromString_errors s :
  let n := String.length (strip_dashes s) in
  (n <> 32%nat -> n <> 33%nat -> NewFromString s = inr (NotValidUUID s))
  /\ (n = 33%nat -> exists e, NewFromString s = inr (HexError e))
  /\ (n = 32%nat -> all_chars is_hex_digit (strip_dashes s) = false ->
      exists c,
        NewFromString s = inr (HexError (hex.InvalidByteError c))
        /\ is_hex_digit (ascii_of_byte c) = false).
Proof.
  cbv zeta. unfold NewFromString. rewrite Replace1_dash, DecodedLen_16.
  set (d := strip_dashes s).
  split; [| split].
  - intros H32 H33.
    destruct (Nat.eqb_spec (String.length d) 32); [contradiction |].
    destruct (Nat.eqb_spec (String.length d) 33); [contradiction |].
    reflexivity.
  - intros H33. rewrite H33. cbn [Nat.eqb orb negb].
    destruct (DecodeString_error d) as (dst & err & ->).
    { left. rewrite H33. reflexivity. }
    exists err. reflexivity.
  - intros H32 Hall. rewrite H32. cbn [Nat.eqb orb negb].
    destruct (DecodeString_bad_digit d) as (dst & c & -> & Hc).
    { rewrite H32. reflexivity. }
    { exact Hall. }
    exists c. split; [reflexivity | exact Hc].
Qed.

(** X19: for a 16-byte identifier, [MarshalJSON] returns 38 bytes: a double
    quote, the canonical text, a double quote.  The text between the quotes
    is made of lowercase hexadecimal digits and dashes only, so it needs no
    JSON escaping, and [NewFromString] reads the identifier back from it. *)
Theorem MarshalJSON_canonical u :
  List.length u = 16%nat ->
  UUID_MarshalJSON u
  = Some (byte_of_ascii quote
            :: list_byte_of_string (spec_canonical u) ++ [byte_of_ascii quote])
  /\ option_map (@List.length byte) (UUID_MarshalJSON u) = Some 38%nat
  /\ all_chars (fun c => is_lower_hex_digit c || Ascii.eqb c "-") (spec_canonical u)
     = true
  /\ NewFromString (spec_canonical u) = inl u.
Proof.
  intros H. unfold UUID_MarshalJSON. rewrite (String_canonical u H).
  assert (Hbytes : list_byte_of_string
                     (String quote (spec_canonical u) ++ String quote EmptyString)
                   = byte_of_ascii quote
                     :: list_byte_of_string (spec_canonical u) ++ [byte_of_ascii quote]).
  { cbn [append]. unfold list_byte_of_string.
    cbn [list_ascii_of_string map]. f_equal.
    generalize (spec_canonical u). intros s.
    induction s as [| c s IH]; cbn [append list_ascii_of_string map app].
    - reflexivity.
    - rewrite IH. reflexivity. }
  rewrite Hbytes.
  split; [reflexivity |]. split; [| split].
  - cbn [option_map List.length]. rewrite length_app.
    unfold list_byte_of_string. rewrite length_map.
    assert (Hl : List.length (list_ascii_of_string (spec_canonical u)) = 36%nat).
    { clear Hbytes. unfold spec_canonical.
      do 16 (destruct u as [| ? u]; [discriminate H |]).
      destruct u; [reflexivity | discriminate H]. }
    rewrite Hl. reflexivity.
  - unfold spec_canonical. rewrite !all_chars_app.
    assert (Hhex : forall l,
      all_chars (fun c => is_lower_hex_digit c || Ascii.eqb c "-") (spec_hex l) = true).
    { intros l.
      apply (all_chars_weaken is_lower_hex_digit); [| apply spec_hex_lower].
      intros c ->. reflexivity. }
    rewrite !Hhex. reflexivity.
  - apply NewFromString_digits; [exact H | apply strip_dashes_canonical, H].
Qed.

Lemma MarshalJSON_canonical_witness :
  List.length example_uuid = 16%nat
  /\ option_map (@List.length byte) (UUID_MarshalJSON example_uuid) = Some 38%nat.
Proof.
  split; [reflexivity |].
  exact (proj1 (proj2 (MarshalJSON_canonical example_uuid eq_refl))).
Defined.

(** ** The base64 encoders *)

Section Base64.

Lemma list_triple_ind {A : Type} (P : list A -> Prop) :
  P [] ->
  (forall x, P [x]) ->
  (forall x y, P [x; y]) ->
  (forall x y z l, P l -> P (x :: y :: z :: l)) ->
  forall l, P l.
Proof.
  intros H0 H1 H2 H3 l.
  assert (H : P l /\ (forall x, P (x :: l)) /\ (forall x y, P (x :: y :: l))).
  { induction l as [| a l (IH0 & IH1 & IH2)].
    - repeat split; [exact H0 | exact H1 | exact H2].
    - split; [apply IH1 |]. split; [intros x; apply IH2 |].
      intros x y. apply H3, IH0. }
  apply H.
Qed.

Lemma list_byte_of_string_length s :
  List.length (list_byte_of_string s) = String.length s.
Proof.
  unfold list_byte_of_string. rewrite length_map.
  induction s as [| c s IH]; cbn [list_ascii_of_string List.length String.length];
    congruence.
Qed.

Lemma encode_at_in_alphabet enc x :
  raw_encoding enc -> in_alphabet enc (base64.encode_at enc (Z.land x 0x3F)).
Proof.
  intros [_ Hlen]. unfold in_alphabet, base64.encode_at.
  apply nth_In. rewrite list_byte_of_string_length, Hlen.
  change 0x3F with (Z.ones 6). rewrite Z.land_ones by lia.
  pose proof (Z.mod_pos_bound x (2 ^ 6) ltac:(lia)).
  change (2 ^ 6) with 64 in *. lia.
Qed.

Lemma EncodedLen_step enc n :
  base64.padChar enc = None -> 0 <= n ->
  base64.EncodedLen enc (n + 3) = base64.EncodedLen enc n + 4
  /\ 0 <= base64.EncodedLen enc n.
Proof.
  intros Hpad Hn. unfold base64.EncodedLen. rewrite Hpad.
  Z.to_euclidean_division_equations. lia.
Qed.

Lemma Encode_length enc src :
  base64.padChar enc = None ->
  Z.of_nat (List.length (base64.Encode enc src))
  = base64.EncodedLen enc (Z.of_nat (List.length src)).
Proof.
  intros Hpad.
  induction src as [| x | x y | x y z l IH] using list_triple_ind.
  - unfold base64.EncodedLen. rewrite Hpad. reflexivity.
  - cbn [base64.Encode]. unfold base64.EncodedLen. rewrite Hpad. reflexivity.
  - cbn [base64.Encode]. unfold base64.EncodedLen. rewrite Hpad. reflexivity.
  - cbn [base64.Encode List.length].
    rewrite !Nat2Z.inj_succ, IH.
    destruct (EncodedLen_step enc (Z.of_nat (List.length l)) Hpad ltac:(lia)) as [E _].
    replace (Z.succ (Z.succ (Z.succ (Z.of_nat (List.length l)))))
      with (Z.of_nat (List.length l) + 3) by lia.
    rewrite E. lia.
Qed.

Lemma Encode_in_alphabet enc src :
  raw_encoding enc -> Forall (in_alphabet enc) (base64.Encode enc src).
Proof.
  intros Hraw. pose proof Hraw as [Hpad _].
  induction src as [| x | x y | x y z l IH] using list_triple_ind;
    cbn [base64.Encode]; rewrite ?Hpad; cbn [app];
    repeat (constructor; [apply encode_at_in_alphabet, Hraw |]);
    try constructor.
  exact IH.
Qed.

Lemma wrapper_is_Encode e src :
  base64.padChar (Enc e) = None ->
  Base64Encoder_Encode e src = base64.Encode (Enc e) src.
Proof.
  intros Hpad. unfold Base64Encoder_Encode, store, make.
  rewrite <- (Encode_length (Enc e) src Hpad), Nat2Z.id.
  cbn [firstn app Nat.add].
  rewrite skipn_all2 by (rewrite repeat_length; lia).
  apply app_nil_r.
Qed.

Lemma std_to_url_at n :
  std_to_url (nth n (list_byte_of_string base64.encodeStd) x00)
  = nth n (list_byte_of_string base64.encodeURL) x00.
Proof.
  do 64 (destruct n as [| n]; [reflexivity |]).
  cbn. destruct n; reflexivity.
Qed.

Lemma index_of_encode_at enc n :
  enc = base64.RawURLEncoding \/ enc = base64.RawStdEncoding ->
  (n < 64)%nat ->
  index_from 0 (list_byte_of_string (base64.encode enc))
    (base64.encode_at enc (Z.of_nat n)) = Z.of_nat n.
Proof.
  intros [-> | ->] Hn;
    do 64 (destruct n as [| n]; [vm_compute; reflexivity |]); lia.
Qed.

Lemma index_of_sextet enc x :
  enc = base64.RawURLEncoding \/ enc = base64.RawStdEncoding ->
  index_from 0 (list_byte_of_string (base64.encode enc))
    (base64.encode_at enc (Z.land x 0x3F)) = Z.land x 0x3F.
Proof.
  intros Henc.
  assert (Hr : 0 <= Z.land x 0x3F < 64).
  { change 0x3F with (Z.ones 6). rewrite Z.land_ones by lia.
    apply Z.mod_pos_bound. lia. }
  rewrite <- (Z2Nat.id (Z.land x 0x3F)) by lia.
  apply index_of_encode_at; [exact Henc | lia].
Qed.

Lemma decode_Encode enc src :
  enc = base64.RawURLEncoding \/ enc = base64.RawStdEncoding ->
  spec_base64_decode enc (base64.Encode enc src) = src.
Proof.
  intros Henc.
  assert (Hpad : base64.padChar enc = None) by (destruct Henc as [-> | ->]; reflexivity).
  induction src as [| x | x y | x y z l IH] using list_triple_ind.
  - reflexivity.
  - cbn [base64.Encode]. rewrite Hpad. cbn [app spec_base64_decode].
    rewrite !index_of_sextet by exact Henc.
    f_equal. apply to_byte_eq.
    rewrite <- (to_byte_byte_val x), !byte_val_to_byte.
    change 0x3F with (Z.ones 6). bits.
  - cbn [base64.Encode]. rewrite Hpad. cbn [app spec_base64_decode].
    rewrite !index_of_sextet by exact Henc.
    f_equal; [| f_equal]; apply to_byte_eq;
      rewrite <- (to_byte_byte_val x), <- (to_byte_byte_val y), !byte_val_to_byte;
      change 0x3F with (Z.ones 6); bits.
  - cbn [base64.Encode spec_base64_decode].
    rewrite !index_of_sextet by exact Henc.
    rewrite IH.
    f_equal; [| f_equal; [| f_equal]]; apply to_byte_eq;
      rewrite <- (to_byte_byte_val x), <- (to_byte_byte_val y),
        <- (to_byte_byte_val z), !byte_val_to_byte;
      change 0x3F with (Z.ones 6); bits.
Qed.

End Base64.

(** X20: with an unpadded encoding over a 64-character alphabet, as both
    encoders of the package have, [Base64Encoder.Encode] returns exactly
    what [Enc.Encode] writes: [(8 n + 5) / 6] characters for [n] bytes, 22
    for a 16-byte identifier, every one of them from the alphabet; and
    [EncodeToString] is the same characters as a string. *)
Theorem Base64Encoder_Encode_shape e src :
  raw_encoding (Enc e) ->
  Base64Encoder_Encode e src = base64.Encode (Enc e) src
  /\ Z.of_nat (List.length (Base64Encoder_Encode e src))
     = (8 * Z.of_nat (List.length src) + 5) / 6
  /\ (List.length src = 16%nat -> List.length (Base64Encoder_Encode e src) = 22%nat)
  /\ Forall (in_alphabet (Enc e)) (Base64Encoder_Encode e src)
  /\ list_byte_of_string (Base64Encoder_EncodeToString e src)
     = Base64Encoder_Encode e src.
Proof.
  intros Hraw. pose proof Hraw as [Hpad _].
  assert (Hlen : Z.of_nat (List.length (Base64Encoder_Encode e src))
                 = (8 * Z.of_nat (List.length src) + 5) / 6).
  { rewrite (wrapper_is_Encode e src Hpad), (Encode_length _ _ Hpad).
    unfold base64.EncodedLen. rewrite Hpad.
    generalize (Nat2Z.is_nonneg (List.length src)).
    generalize (Z.of_nat (List.length src)). intros n Hn.
    Z.to_euclidean_division_equations. lia. }
  split; [apply wrapper_is_Encode, Hpad |]. split; [exact Hlen |].
  split; [| split].
  - intros H16. rewrite H16 in Hlen. change ((8 * Z.of_nat 16 + 5) / 6) with 22 in Hlen.
    lia.
  - rewrite (wrapper_is_Encode e src Hpad). apply Encode_in_alphabet, Hraw.
  - unfold Base64Encoder_EncodeToString. apply list_byte_of_string_of_list_byte.
Qed.

Lemma Base64Encoder_Encode_shape_witness :
  raw_encoding (Enc Base64URLEncoder)
  /\ List.length (Base64Encoder_Encode Base64URLEncoder example_uuid) = 22%nat
  /\ Base64Encoder_EncodeToString Base64URLEncoder example_uuid
     = "8lTfShhMEBmApMYc0ApomQ"%string.
Proof.
  assert (Hraw : raw_encoding (Enc Base64URLEncoder)) by (split; reflexivity).
  split; [exact Hraw |]. split.
  - exact (proj1 (proj2 (proj2 (Base64Encoder_Encode_shape Base64URLEncoder
                                  example_uuid Hraw))) eq_refl).
  - vm_compute. reflexivity.
Defined.

(** X21: the URL-safe encoder returns the output of the standard encoder
    with every [+] replaced by [-] and every [/] by [_], and nothing else
    changed. *)
Theorem Base64_URL_is_Std_translated src :
  Base64Encoder_Encode Base64URLEncoder src
  = map std_to_url (Base64Encoder_Encode Base64StdEncoder src).
Proof.
  rewrite !wrapper_is_Encode by reflexivity.
  cbn [Enc Base64URLEncoder Base64StdEncoder].
  induction src as [| x | x y | x y z l IH] using list_triple_ind;
    cbn [base64.Encode base64.padChar base64.RawURLEncoding base64.RawStdEncoding
         app map];
    unfold base64.encode_at;
    cbn [base64.encode base64.RawURLEncoding base64.RawStdEncoding];
    rewrite ?std_to_url_at; try reflexivity.
  fold (base64.encode_at base64.RawURLEncoding).
  rewrite IH. reflexivity.
Qed.

(** X22: each of the two encoders is injective: byte slices with the same
    encoding are equal, so different identifiers never share an encoded
    form. *)
Theorem Base64Encoder_Encode_injective e u v :
  e = Base64URLEncoder \/ e = Base64StdEncoder ->
  Base64Encoder_Encode e u = Base64Encoder_Encode e v ->
  u = v.
Proof.
  intros He Heq.
  assert (Henc : Enc e = base64.RawURLEncoding \/ Enc e = base64.RawStdEncoding)
    by (destruct He as [-> | ->]; [left | right]; reflexivity).
  assert (Hpad : base64.padChar (Enc e) = None)
    by (destruct He as [-> | ->]; reflexivity).
  rewrite !wrapper_is_Encode in Heq by exact Hpad.
  rewrite <- (decode_Encode (Enc e) u Henc), <- (decode_Encode (Enc e) v Henc), Heq.
  reflexivity.
Qed.

Lemma Base64Encoder_Encode_injective_witness :
  (Base64StdEncoder = Base64URLEncoder \/ Base64StdEncoder = Base64StdEncoder)
  /\ Base64Encoder_Encode Base64StdEncoder example_uuid
     = Base64Encoder_Encode Base64StdEncoder
         (fst (hex.DecodeString "f254df4a184c101980a4c61cd00a6899"))
  /\ example_uuid = fst (hex.DecodeString "f254df4a184c101980a4c61cd00a6899").
Proof.
  assert (Heq : Base64Encoder_Encode Base64StdEncoder example_uuid
                = Base64Encoder_Encode Base64StdEncoder
                    (fst (hex.DecodeString "f254df4a184c101980a4c61cd00a6899")))
    by (vm_compute; reflexivity).
  split; [right; reflexivity |]. split; [exact Heq |].
  exact (Base64Encoder_Encode_injective Base64StdEncoder example_uuid
           (fst (hex.DecodeString "f254df4a184c101980a4c61cd00a6899"))
           (or_intror eq_refl) Heq).
Defined.

(** ** The node id across generator calls *)

Lemma node_of_range csan : 0 <= node_of csan < 2 ^ 30.
Proof.
  assert (E : node_of csan = node_of csan mod 2 ^ 30) by (masks; bits).
  rewrite E. apply Z.mod_pos_bound. lia.
Qed.

(** X23: a call of either generator from a reachable state does not change
    what [NodeId()] returns, the identifier it returns carries exactly that
    node id, and the node id is below [2^30]. *)
Theorem generate_keeps_NodeId g c u g' :
  reachable g ->
  generate c g = Some (u, g') ->
  NodeId g' = NodeId g
  /\ UUID_NodeId u = Some (NodeId g)
  /\ 0 <= NodeId g < 2 ^ 30.
Proof.
  intros Hr E.
  destruct (generate_spec c g (reachable_ok g Hr))
    as (u0 & g0 & E0 & _ & Hnode & _ & _ & _ & Hu).
  rewrite E in E0. apply Some_inj in E0.
  pose proof (f_equal fst E0) as Eu. pose proof (f_equal snd E0) as Eg.
  cbn [fst snd] in Eu, Eg. subst u0 g0.
  rewrite !NodeId_node_of.
  split; [exact Hnode |]. split; [exact Hu | apply node_of_range].
Qed.

Lemma generate_keeps_NodeId_witness :
  reachable gen0
  /\ generate (CallNew 5 0) gen0 = Some (New 5 0 gen0)
  /\ NodeId (snd (New 5 0 gen0)) = NodeId gen0.
Proof.
  assert (E : generate (CallNew 5 0) gen0 = Some (fst (New 5 0 gen0), snd (New 5 0 gen0)))
    by (vm_compute; reflexivity).
  split; [exact reachable_gen0 |]. split; [vm_compute; reflexivity |].
  exact (proj1 (generate_keeps_NodeId gen0 (CallNew 5 0) _ _ reachable_gen0 E)).
Defined.
